(** * scripture-to-slides: the layout engine of [esv_slides/pdf_generator.py]

    A shallow embedding of the text classifier, the element parser, the line
    wrapper, the paginator and the inline verse segmenter of [PDFGenerator],
    with the properties of the layout specification checked against them.

    Conventions of the embedding.
    - A Python [str] is a list of Unicode code points ([char := N]).
    - Widths and heights are Python floats; they are read as the rational
      numbers they denote ([Q]), and rounding of the float products and
      quotients is not modelled.  No property below depends on it: every
      statement about wrapping holds for all widths, every statement about
      pagination for all line budgets.
    - [self.c.stringWidth(., font_name, font_size)] is the canvas of reportlab;
      it enters as a parameter [measure : str -> Q].
    - The class [\d] of the [re] module (the decimal digits of the
      interpreter's Unicode tables) enters as a parameter
      [is_digit : char -> bool]. *)

From Stdlib Require Import List ZArith NArith QArith Qround Lia Lqa Bool.
From Stdlib Require Import Ascii String.
Import ListNotations.

Close Scope Q_scope.
Local Open Scope list_scope.

(** ** Strings *)

Definition char := N.
Definition str := list char.

(** Code points of an ASCII literal. *)
Definition lit (s : String.string) : str :=
  List.map N_of_ascii (list_ascii_of_string s).

Definition SPACE : char := 32%N.
Definition NEWLINE : char := 10%N.
Definition LBRACKET : char := 91%N.
Definition RBRACKET : char := 93%N.

(** [str.isspace] on one code point: the characters that [str.split()] and
    [str.strip()] treat as whitespace. *)
Definition py_isspace (c : char) : bool :=
  ((9 <=? c) && (c <=? 13) || (28 <=? c) && (c <=? 32) ||
   (c =? 133) || (c =? 160) || (c =? 5760) ||
   (8192 <=? c) && (c <=? 8202) || (c =? 8232) || (c =? 8233) ||
   (c =? 8239) || (c =? 8287) || (c =? 12288))%N.

Definition nonempty {A} (l : list A) : bool :=
  match l with [] => false | _ :: _ => true end.

Fixpoint dropwhile {A} (p : A -> bool) (l : list A) : list A :=
  match l with
  | [] => []
  | x :: t => if p x then dropwhile p t else l
  end.

(** [s.lstrip()], [s.rstrip()], [s.strip()]. *)
Definition lstrip (s : str) : str := dropwhile py_isspace s.
Definition rstrip (s : str) : str := rev (dropwhile py_isspace (rev s)).
Definition strip (s : str) : str := rstrip (lstrip s).

(** [s.lstrip(' ')]: only the space character is removed. *)
Definition lstrip_spaces (s : str) : str := dropwhile (N.eqb SPACE) s.

(** [s.split(sep)] for a one-character separator: empty fields are kept. *)
Fixpoint split_on (sep : char) (s : str) : list str :=
  match s with
  | [] => [[]]
  | c :: t =>
      if (c =? sep)%N then [] :: split_on sep t
      else match split_on sep t with
           | [] => [[c]]
           | l :: ls => (c :: l) :: ls
           end
  end.

(** [s.split()]: fields are the maximal runs of non-whitespace characters.
    [cur] is the field being read. *)
Fixpoint split_ws_from (s : str) (cur : str) : list str :=
  match s with
  | [] => if nonempty cur then [cur] else []
  | c :: t =>
      if py_isspace c
      then (if nonempty cur then cur :: split_ws_from t [] else split_ws_from t [])
      else split_ws_from t (cur ++ [c])
  end.

Definition split_ws (s : str) : list str := split_ws_from s [].

(** [sep.join(parts)]. *)
Fixpoint join (sep : str) (parts : list str) : str :=
  match parts with
  | [] => []
  | [p] => p
  | p :: ps => p ++ sep ++ join sep ps
  end.

Definition join_sp (parts : list str) : str := join [SPACE] parts.

(** ** Line wrapper: [PDFGenerator._wrap_text] *)

Section Wrap.

(** [self.c.stringWidth(., font_name, font_size)] *)
Variable measure : str -> Q.
Variable max_width : Q.

(** The [for word in words] loop with its two accumulators. *)
Fixpoint wrap_loop (words : list str) (lines : list str)
         (current_line : list str) : list str :=
  match words with
  | [] =>
      if nonempty current_line
      then lines ++ [join_sp current_line]
      else lines
  | word :: rest =>
      let test_line := join_sp (current_line ++ [word]) in
      let width := measure test_line in
      if Qle_bool width max_width
      then wrap_loop rest lines (current_line ++ [word])
      else wrap_loop rest
             (if nonempty current_line
              then lines ++ [join_sp current_line]
              else lines)
             [word]
  end.

Definition _wrap_text (text : str) : list str :=
  wrap_loop (split_ws text) [] [].

End Wrap.

(** A fixed-pitch measurement: [k] points a character.  The specification's
    example takes ten. *)
Definition per_char (k : Z) (s : str) : Q := inject_Z (k * Z.of_nat (List.length s)).
Definition ten_per_char : str -> Q := per_char 10.


(** ** Verse-number markers: the pattern [\[(\d+)\]] *)

Section Markers.

(** The class [\d] of the regular-expression engine. *)
Variable is_digit : char -> bool.

(** [\d+\]] at the head of [t]: the digits matched and the text after the
    closing bracket.  The repetition is greedy and backtracks: the longest
    run of digits that is followed by a closing bracket wins. *)
Fixpoint match_digits (t : str) : option (str * str) :=
  match t with
  | [] => None
  | c :: t' =>
      if is_digit c then
        match match_digits t' with
        | Some (ds, rest) => Some (c :: ds, rest)
        | None =>
            match t' with
            | c' :: rest => if (c' =? RBRACKET)%N then Some ([c], rest) else None
            | [] => None
            end
        end
      else None
  end.

(** The pattern anchored at the head of [s]. *)
Definition match_at (s : str) : option (str * str) :=
  match s with
  | c :: t => if (c =? LBRACKET)%N then match_digits t else None
  | [] => None
  end.

(** [re.search(pattern, s)] finds a match. *)
Fixpoint re_search (s : str) : bool :=
  match match_at s with
  | Some _ => true
  | None => match s with [] => false | _ :: t => re_search t end
  end.

(** A match object: [start()], [end()] and [group(1)]. *)
Record re_match := { m_start : nat; m_end : nat; m_group1 : str }.

(** [re.finditer(pattern, line)]: the scan tries each position from left to
    right and resumes after the end of a match.  A step consumes at least
    one character, so [fuel = len(line)] steps reach the end of the line
    (lemma [finditer_fuel_enough]). *)
Fixpoint finditer_from (fuel : nat) (pos : nat) (s : str) : list re_match :=
  match fuel with
  | O => []
  | S fuel' =>
      match s with
      | [] => []
      | _ :: t =>
          match match_at s with
          | Some (ds, rest) =>
              let e := pos + (List.length ds + 2) in
              {| m_start := pos; m_end := e; m_group1 := ds |}
                :: finditer_from fuel' e rest
          | None => finditer_from fuel' (S pos) t
          end
      end
  end.

Definition finditer (line : str) : list re_match :=
  finditer_from (List.length line) 0 line.

(** *** Text classifier *)

Definition has_leading_space (line : str) : bool :=
  match line with c :: _ => (c =? SPACE)%N | [] => false end.

Definition _is_section_heading (line : str) : bool :=
  let stripped := strip line in
  let has_leading_spaces := has_leading_space line in
  nonempty stripped && negb (re_search stripped) && negb has_leading_spaces.

Definition _is_poetry (text : str) : bool :=
  let lines := split_on NEWLINE text in
  existsb (fun line => has_leading_space line && nonempty (strip line)) lines.

(** *** Element parser: [_parse_passage_elements] *)

Inductive elem_type := heading | body | poetry.
Definition element : Type := elem_type * str.

(** The flush of [current_body], written twice in the source (on a heading
    and after the loop). *)
Definition flush_body (is_poetry_passage : bool) (current_body : list str)
  : list element :=
  if nonempty current_body then
    if is_poetry_passage
    then List.map (fun body_line => (poetry, body_line)) current_body
    else [(body, join_sp current_body)]
  else [].

Fixpoint parse_loop (is_poetry_passage : bool) (lines : list str)
         (elements : list element) (current_body : list str) : list element :=
  match lines with
  | [] => elements ++ flush_body is_poetry_passage current_body
  | line :: rest =>
      let stripped := strip line in
      if negb (nonempty stripped) then
        parse_loop is_poetry_passage rest elements current_body
      else if _is_section_heading line then
        parse_loop is_poetry_passage rest
          ((elements ++ flush_body is_poetry_passage current_body)
             ++ [(heading, stripped)])
          []
      else if is_poetry_passage then
        parse_loop is_poetry_passage rest elements (current_body ++ [line])
      else
        parse_loop is_poetry_passage rest elements (current_body ++ [stripped])
  end.

Definition _parse_passage_elements (text : str) : list element :=
  let lines := split_on NEWLINE text in
  let is_poetry_passage := _is_poetry text in
  parse_loop is_poetry_passage lines [] [].

(** *** Inline verse segmenter: the first half of
    [_render_line_with_colored_verse_numbers] *)

Inductive segment := Text (s : str) | VerseNumber (digits : str).

(** [s[a:b]] for [0 <= a <= b]. *)
Definition slice (s : str) (a b : nat) : str := firstn (b - a) (skipn a s).

Fixpoint segment_loop (line : str) (matches : list re_match)
         (segments : list segment) (last_end : nat) : list segment * nat :=
  match matches with
  | [] => (segments, last_end)
  | m :: ms =>
      let segments :=
        if (last_end <? m_start m)%nat
        then segments ++ [Text (slice line last_end (m_start m))]
        else segments in
      segment_loop line ms (segments ++ [VerseNumber (m_group1 m)]) (m_end m)
  end.

(** The statement after the loop: the text that remains. *)
Definition add_remaining (line : str) (segments : list segment) (last_end : nat)
  : list segment :=
  if (last_end <? List.length line)%nat
  then segments ++ [Text (skipn last_end line)]
  else segments.

Definition line_segments (line : str) : list segment :=
  let '(segments, last_end) := segment_loop line (finditer line) [] 0%nat in
  add_remaining line segments last_end.

End Markers.

(** ** Wrapped lines: the first half of [_create_body_slides] *)

(** Layout constants of the module. *)
Definition SLIDE_WIDTH : Q := 1920%Q.
Definition SLIDE_HEIGHT : Q := 1080%Q.
Definition MARGIN_LEFT : Q := 150%Q.
Definition MARGIN_RIGHT : Q := 150%Q.
Definition MARGIN_TOP : Q := 150%Q.
Definition MARGIN_BOTTOM : Q := 120%Q.

(** A formatted line: [('heading', content)], [('poetry', (leading_spaces,
    line))] or [('body', line)]. *)
Inductive line_item :=
| Heading (content : str)
| Poetry (leading_spaces : nat) (line : str)
| Body (line : str).

(** [for i, line in enumerate(wrapped)] of the poetry branch, from index [i].
    Both branches of the test on [i] append the same tuple. *)
Fixpoint poetry_items (leading_spaces : nat) (i : nat) (wrapped : list str)
  : list line_item :=
  match wrapped with
  | [] => []
  | line :: rest =>
      (if (i =? 0)%nat
       then Poetry leading_spaces line
       else Poetry leading_spaces line)
        :: poetry_items leading_spaces (S i) rest
  end.

Section Format.

Variable measure : str -> Q.
Variable body_font_size : Q.

Definition available_width : Q := (SLIDE_WIDTH - MARGIN_LEFT - MARGIN_RIGHT)%Q.

Definition format_element (e : element) : list line_item :=
  let '(elem_type, content) := e in
  match elem_type with
  | heading => [Heading content]
  | poetry =>
      let stripped_text := lstrip_spaces content in
      let leading_spaces := (List.length content - List.length stripped_text)%nat in
      let indent_offset :=
        (inject_Z (Z.of_nat leading_spaces) * (body_font_size * (3 # 10)))%Q in
      let poetry_available_width := (available_width - indent_offset)%Q in
      let wrapped := _wrap_text measure poetry_available_width stripped_text in
      poetry_items leading_spaces 0 wrapped
  | body =>
      List.map Body (_wrap_text measure available_width content)
  end.

Definition format_lines (elements : list element) : list line_item :=
  flat_map format_element elements.

End Format.

(** ** Paginator: the second half of [_create_body_slides] *)

Definition slide := list line_item.

(** [int(x)] of a float: truncation toward zero. *)
Definition int_trunc (x : Q) : Z := Z.quot (Qnum x) (Zpos (Qden x)).

Definition is_heading_item (it : line_item) : bool :=
  match it with Heading _ => true | _ => false end.

Definition is_body_item (it : line_item) : bool :=
  match it with Body _ => true | _ => false end.

Section Paginate.

(** [int(available_height / line_height)], the same at every iteration. *)
Variable max_lines : Z.

(** The inner [while]: [lines] is [formatted_lines[line_index:]].  The
    result is the slide built, its count of line heights, and the lines left
    at the [break] or at the end of the input. *)
Fixpoint fill_slide (lines : list line_item) (current_slide : slide)
         (lines_on_slide : Z) : slide * Z * list line_item :=
  match lines with
  | [] => (current_slide, lines_on_slide, [])
  | line_item :: rest =>
      if is_heading_item line_item then
        let lines_needed := if nonempty current_slide then 2 else 1 in
        let has_body_after :=
          match rest with next :: _ => is_body_item next | [] => false end in
        let total_needed :=
          if has_body_after then lines_needed + 1 else lines_needed in
        if (lines_on_slide + total_needed >? max_lines) && nonempty current_slide
        then (current_slide, lines_on_slide, lines)
        else fill_slide rest (current_slide ++ [line_item])
               (lines_on_slide + lines_needed)
      else
        if lines_on_slide + 1 >? max_lines
        then (current_slide, lines_on_slide, lines)
        else fill_slide rest (current_slide ++ [line_item]) (lines_on_slide + 1)
  end%Z.

(** The outer [while], run for at most [fuel] iterations: the slides handed
    to [_create_single_body_slide_with_headings] so far, and whether the
    loop has ended ([line_index = len(formatted_lines)]). *)
Fixpoint paginate_loop (fuel : nat) (lines : list line_item)
  : list slide * bool :=
  match lines with
  | [] => ([], true)
  | _ :: _ =>
      match fuel with
      | O => ([], false)
      | S fuel' =>
          let '(current_slide, _, rest) := fill_slide lines [] 0%Z in
          let '(slides, ended) := paginate_loop fuel' rest in
          (if nonempty current_slide then current_slide :: slides else slides,
           ended)
      end
  end.

End Paginate.

(** What a run of the pagination loops gives. *)
Inductive outcome :=
| Finished (slides : list slide)
| StillRunning (slides : list slide)
| ZeroDivisionError.

Definition paginate (fuel : nat) (available_height line_height : Q)
           (formatted_lines : list line_item) : outcome :=
  match formatted_lines with
  | [] => Finished []
  | _ :: _ =>
      if Qeq_bool line_height 0%Q then ZeroDivisionError
      else
        let max_lines := int_trunc (available_height / line_height)%Q in
        let '(slides, ended) := paginate_loop max_lines fuel formatted_lines in
        if ended then Finished slides else StillRunning slides
  end.

Definition _create_body_slides (is_digit : char -> bool) (measure : str -> Q)
           (body_font_size : Q) (fuel : nat) (text : str) : outcome :=
  let elements := _parse_passage_elements is_digit text in
  let formatted_lines := format_lines measure body_font_size elements in
  let line_height := (body_font_size * (3 # 2))%Q in
  let available_height := (SLIDE_HEIGHT - MARGIN_TOP - MARGIN_BOTTOM)%Q in
  paginate fuel available_height line_height formatted_lines.

(** The digits of ASCII, for the examples. *)
Definition ascii_digit (c : char) : bool := ((48 <=? c) && (c <=? 57))%N.

(** ** Vocabulary of the specification *)

Definition nonspace (c : char) : bool := negb (py_isspace c).

(** A word: a non-empty string without whitespace. *)
Definition is_word (w : str) : Prop := w <> [] /\ forallb nonspace w = true.

(** The budget units of a slide: one for a body or poetry line, two for a
    heading, except one for a heading that opens the slide. *)
Fixpoint units_after_first (s : slide) : Z :=
  match s with
  | [] => 0
  | it :: t => (if is_heading_item it then 2 else 1) + units_after_first t
  end%Z.

Definition slide_units (s : slide) : Z :=
  match s with
  | [] => 0
  | _ :: t => 1 + units_after_first t
  end%Z.

(** A slide within the budget, or made of one heading placed by force. *)
Definition slide_ok (max_lines : Z) (s : slide) : Prop :=
  s <> [] /\ ((slide_units s <= max_lines)%Z \/ exists content, s = [Heading content]).

(** The slides that a run has handed to the canvas. *)
Definition emitted (o : outcome) : list slide :=
  match o with
  | Finished slides => slides
  | StillRunning slides => slides
  | ZeroDivisionError => []
  end.

(** A verse-number marker: the digits in brackets. *)
Definition marker (digits : str) : str := LBRACKET :: digits ++ [RBRACKET].

(** The text that a segment stands for. *)
Definition segment_source (sg : segment) : str :=
  match sg with
  | Text s => s
  | VerseNumber digits => marker digits
  end.

Definition reassemble (segments : list segment) : str :=
  flat_map segment_source segments.

(** A stretch of plain text gives a [Text] segment when it is non-empty. *)
Definition text_segment (g : str) : list segment :=
  if nonempty g then [Text g] else [].

(** The segments of a line in the words of the specification: the
    non-overlapping matches of the pattern from left to right, each giving a
    [VerseNumber], and the non-empty stretches before, between and after them,
    each giving a [Text].  A stretch [g] before a match holds no position
    where the pattern matches. *)
Inductive segmentation (is_digit : char -> bool) : str -> list segment -> Prop :=
| seg_no_match (g : str) :
    (forall i, match_at is_digit (skipn i g) = None) ->
    segmentation is_digit g (text_segment g)
| seg_match (g digits rest : str) (segments : list segment) :
    (forall i, (i < List.length g)%nat ->
               match_at is_digit (skipn i (g ++ marker digits ++ rest)) = None) ->
    match_at is_digit (marker digits ++ rest) = Some (digits, rest) ->
    segmentation is_digit rest segments ->
    segmentation is_digit (g ++ marker digits ++ rest)
                 (text_segment g ++ VerseNumber digits :: segments).

(** A line that is not blank: something is left after stripping. *)
Definition nonblank (line : str) : bool := nonempty (strip line).

(** The element of one line of a poetry passage. *)
Definition poetry_element (is_digit : char -> bool) (line : str) : element :=
  if _is_section_heading is_digit line
  then (heading, strip line)
  else (poetry, line).

(** The elements of a prose passage in the words of the specification, over
    its non-blank lines: a heading line gives a [heading] with the stripped
    line; a run of consecutive lines that are not headings, ended by a heading
    or by the end of the passage, gives one [body] with the stripped lines
    joined by single spaces. *)
Inductive prose_elements (is_digit : char -> bool)
  : list str -> list element -> Prop :=
| prose_end : prose_elements is_digit [] []
| prose_heading (line : str) (lines : list str) (elements : list element) :
    _is_section_heading is_digit line = true ->
    prose_elements is_digit lines elements ->
    prose_elements is_digit (line :: lines) ((heading, strip line) :: elements)
| prose_run (run lines : list str) (elements : list element) :
    run <> [] ->
    Forall (fun line => _is_section_heading is_digit line = false) run ->
    match lines with
    | [] => True
    | next :: _ => _is_section_heading is_digit next = true
    end ->
    prose_elements is_digit lines elements ->
    prose_elements is_digit (run ++ lines)
                   ((body, join_sp (List.map strip run)) :: elements).

(** The characters of a string that are not whitespace, in order. *)
Definition letters (s : str) : str := filter nonspace s.

(** The contents of the elements, one after the other. *)
Definition contents (elements : list element) : str :=
  List.concat (List.map snd elements).

(** A string that holds a character that is not whitespace. *)
Definition has_letters (s : str) : Prop := letters s <> [].

(** A line of the wrapper: within the width, or one word of the text, whole,
    that is wider. *)
Definition line_fits (measure : str -> Q) (max_width : Q)
           (all_words : list str) (line : str) : Prop :=
  (measure line <= max_width)%Q
  \/ (In line all_words /\ split_ws line = [line] /\ (max_width < measure line)%Q).

(** The state of the inner loop of the paginator: [lines_on_slide] counts the
    units of [current_slide], and the slide stays within the budget unless it
    is a single heading placed on an empty slide. *)
Definition slide_state_ok (max_lines : Z) (cur : slide) (n : Z) : Prop :=
  n = slide_units cur
  /\ (cur = [] \/ (n <= max_lines)%Z \/ exists content, cur = [Heading content]).

(** A measurement under which a line can be narrower than one of its
    words: the word [b] alone measures 100, every other string 10. *)
Definition lone_b_measure (s : str) : Q :=
  match s with
  | [98%N] => 100%Q
  | _ => 10%Q
  end.

(** What the parser keeps of a line that is not blank: the line as it is when
    it is a poetry line (a line of a poetry passage that is not a heading),
    the stripped line otherwise. *)
Definition kept_line (is_digit : char -> bool) (is_poetry_passage : bool)
           (line : str) : str :=
  if is_poetry_passage && negb (_is_section_heading is_digit line)
  then line
  else strip line.

(** The lines of a passage that are not blank, as the parser keeps them, in
    order. *)
Definition kept_lines (is_digit : char -> bool) (text : str) : list str :=
  List.map (kept_line is_digit (_is_poetry text))
           (filter nonblank (split_on NEWLINE text)).

(** An element made of a group of kept lines: its content is the lines of the
    group joined by single spaces, and only a body takes more than one line. *)
Definition made_of (e : element) (group : list str) : Prop :=
  group <> []
  /\ snd e = join_sp group
  /\ (fst e <> body -> exists line, group = [line]).

(** * The rest of the program *)

(** ** File names: [utils.sanitize_filename] and the head of [generate_pdf] *)

Definition COMMA : char := 44%N.
Definition COLON : char := 58%N.
Definition SEMICOLON : char := 59%N.
Definition UNDERSCORE : char := 95%N.

(** [s.replace(old, new)] for a one-character [old]. *)
Definition replace_char (old : char) (new : str) (s : str) : str :=
  flat_map (fun c => if (c =? old)%N then new else [c]) s.

Definition sanitize_filename (text : str) : str :=
  let text := replace_char SPACE [UNDERSCORE] text in
  let text := replace_char COLON [UNDERSCORE] text in
  let text := replace_char COMMA [] text in
  let text := replace_char SEMICOLON [] text in
  text.

Fixpoint startswith (s prefix : str) : bool :=
  match prefix, s with
  | [], _ => true
  | _ :: _, [] => false
  | p :: prefix', c :: s' => (c =? p)%N && startswith s' prefix'
  end.

(** [s.endswith(suffix)]. *)
Definition endswith (s suffix : str) : bool := startswith (rev s) (rev suffix).

(** The file name that [generate_pdf] writes to.  [output_filename] is [None]
    when the argument is left out; [timestamp] is
    [datetime.now().strftime("%Y-%m-%d_%H%M")]. *)
Definition generate_pdf_filename (output_filename : option str) (timestamp : str)
  : str :=
  match output_filename with
  | Some name =>
      if nonempty name
      then (if endswith name (lit ".pdf") then name else name ++ lit ".pdf")
      else lit "scripture_" ++ timestamp ++ lit ".pdf"
  | None => lit "scripture_" ++ timestamp ++ lit ".pdf"
  end.

(** ** References: [cli.get_references] *)

(** A call that may end the process with [sys.exit(code)]. *)
Inductive run (A : Type) :=
| SystemExit (code : Z)
| Returns (value : A).
Arguments SystemExit {A} code.
Arguments Returns {A} value.

(** What [open(args.file)] and the reading of its lines give. *)
Inductive file_read :=
| FileNotFoundError
| OtherError
| FileLines (lines : list str).

(** The fields of the parsed arguments that [get_references] reads. *)
Record cli_args := { args_references : list str; args_file : option str }.

(** The loop over [args.references]. *)
Definition argument_references (refs : list str) : list str :=
  flat_map (fun ref =>
              if existsb (N.eqb COMMA) ref
              then List.map strip (split_on COMMA ref)
              else [ref])
           refs.

Definition get_references (open_file : str -> file_read) (args : cli_args)
  : run (list str) :=
  let references := argument_references (args_references args) in
  match args_file args with
  | None => Returns references
  | Some file =>
      if nonempty file then
        match open_file file with
        | FileLines lines =>
            let file_refs :=
              List.map strip (filter (fun line => nonempty (strip line)) lines) in
            if nonempty file_refs
            then Returns (references ++ file_refs)
            else SystemExit 1
        | FileNotFoundError => SystemExit 1
        | OtherError => SystemExit 1
        end
      else Returns references
  end.

(** The check at the end of [parse_args]: a reference or an input file. *)
Definition has_reference_source (args : cli_args) : bool :=
  nonempty (args_references args)
  || match args_file args with Some file => nonempty file | None => false end.

(** ** Vocabulary for the rest of the program *)

(** A string that is not empty and has no whitespace at either end. *)
Definition trimmed (s : str) : Prop := s <> [] /\ strip s = s.

Definition starts_clean (s : str) : Prop :=
  match s with
  | c :: _ => py_isspace c = false
  | [] => False
  end.

(** The text of a formatted line. *)
Definition item_text (it : line_item) : str :=
  match it with
  | Heading content => content
  | Poetry _ line => line
  | Body line => line
  end.

(** The words of a list of formatted lines, in order. *)
Definition item_words (items : list line_item) : list str :=
  flat_map (fun it => split_ws (item_text it)) items.

(** The headings among the formatted lines, and among the elements. *)
Definition heading_items (items : list line_item) : list str :=
  flat_map (fun it => match it with Heading content => [content] | _ => [] end)
           items.

Definition heading_elements (elements : list element) : list str :=
  flat_map (fun e : element =>
              match fst e with heading => [snd e] | _ => [] end)
           elements.

(** The words of the elements, in order. *)
Definition element_words (elements : list element) : list str :=
  flat_map (fun e : element => split_ws (snd e)) elements.

(** ** The generator: [PDFGenerator.__init__] and [_get_bold_font] *)

Record generator := {
  font : str;
  body_font_size : Q;
  verse_number_font_size : Z;
  title_font_size : Z;
  footer_font_size : Z }.

Definition PDFGenerator_init (font : str) (font_size : Q) : generator :=
  let scale_factor := (font_size / 64)%Q in
  {| font := font;
     body_font_size := font_size;
     verse_number_font_size := int_trunc (42 * scale_factor)%Q;
     title_font_size := int_trunc (72 * scale_factor)%Q;
     footer_font_size := int_trunc (24 * scale_factor)%Q |}.

Definition str_eqb (a b : str) : bool :=
  if list_eq_dec N.eq_dec a b then true else false.

(** [self.font_bold_map] *)
Definition font_bold_map : list (str * str) :=
  [(lit "Helvetica", lit "Helvetica-Bold");
   (lit "Times-Roman", lit "Times-Bold");
   (lit "Courier", lit "Courier-Bold")].

(** [d.get(key, default)] on a dictionary kept as a list of pairs. *)
Fixpoint dict_get (d : list (str * str)) (key default : str) : str :=
  match d with
  | [] => default
  | (k, v) :: d' => if str_eqb k key then v else dict_get d' key default
  end.

Definition _get_bold_font (g : generator) : str :=
  dict_get font_bold_map (font g) (font g ++ lit "-Bold").

(** ** The canvas and the drawing of a slide *)

Definition BG_COLOR : str := lit "#000000".
Definition TEXT_COLOR : str := lit "#FFFFFF".
Definition VERSE_NUMBER_COLOR : str := lit "#FFFFFF".

(** The calls made on the canvas [self.c]. *)
Inductive canvas_op :=
| setFillColor (color : str)
| rect (x y width height : Q) (fill stroke : bool)
| setFont (name : str) (size : Q)
| drawString (x y : Q) (text : str)
| showPage.

Section Drawing.

Variable is_digit : char -> bool.

(** [self.c.stringWidth(text, fontName, fontSize)] *)
Variable stringWidth : str -> str -> Q -> Q.

Variable g : generator.

(** The loop over the segments of [_render_line_with_colored_verse_numbers]:
    the calls made and the final [current_x]. *)
Fixpoint render_segments (segments : list segment) (current_x y : Q)
  : list canvas_op * Q :=
  match segments with
  | [] => ([], current_x)
  | VerseNumber seg_text :: rest =>
      let superscript_y := (y + body_font_size g * (4 # 10))%Q in
      let ops :=
        [setFillColor VERSE_NUMBER_COLOR;
         setFont (font g) (inject_Z (verse_number_font_size g));
         drawString current_x superscript_y seg_text] in
      let current_x :=
        (current_x
         + stringWidth seg_text (font g) (inject_Z (verse_number_font_size g)))%Q in
      let '(more, final_x) := render_segments rest current_x y in
      (ops ++ [setFont (font g) (body_font_size g)] ++ more, final_x)
  | Text seg_text :: rest =>
      let ops := [setFillColor TEXT_COLOR; drawString current_x y seg_text] in
      let current_x :=
        (current_x + stringWidth seg_text (font g) (body_font_size g))%Q in
      let '(more, final_x) := render_segments rest current_x y in
      (ops ++ more, final_x)
  end.

(** The calls made and the width returned. *)
Definition _render_line_with_colored_verse_numbers (x y : Q) (line : str)
  : list canvas_op * Q :=
  let segments := line_segments is_digit line in
  let '(ops, current_x) := render_segments segments x y in
  (ops, (current_x - x)%Q).

Definition _draw_footer (text : str) : list canvas_op :=
  [setFont (font g) (inject_Z (footer_font_size g));
   drawString MARGIN_LEFT (MARGIN_BOTTOM - 60)%Q text].

(** The loop over the lines of [_create_single_body_slide_with_headings],
    from the line of index [i] at height [y]: the calls made and the final
    [y]. *)
Fixpoint render_items (line_height : Q) (i : nat) (y : Q)
         (formatted_lines : list line_item) : list canvas_op * Q :=
  match formatted_lines with
  | [] => ([], y)
  | line_item :: rest =>
      match line_item with
      | Heading text =>
          let y := if (0 <? i)%nat then (y - line_height)%Q else y in
          let text_width := stringWidth text (_get_bold_font g) (body_font_size g) in
          let x := ((SLIDE_WIDTH - text_width) / 2)%Q in
          let ops :=
            [setFillColor TEXT_COLOR;
             setFont (_get_bold_font g) (body_font_size g);
             drawString x y text] in
          let '(more, final_y) :=
            render_items line_height (S i) (y - line_height)%Q rest in
          (ops ++ more, final_y)
      | Poetry leading_spaces poetry_text =>
          let indent_offset :=
            (inject_Z (Z.of_nat leading_spaces) * (body_font_size g * (3 # 10)))%Q in
          let '(line_ops, _) :=
            _render_line_with_colored_verse_numbers
              (MARGIN_LEFT + indent_offset)%Q y poetry_text in
          let '(more, final_y) :=
            render_items line_height (S i) (y - line_height)%Q rest in
          ([setFont (font g) (body_font_size g)] ++ line_ops ++ more, final_y)
      | Body text =>
          let '(line_ops, _) :=
            _render_line_with_colored_verse_numbers MARGIN_LEFT y text in
          let '(more, final_y) :=
            render_items line_height (S i) (y - line_height)%Q rest in
          ([setFont (font g) (body_font_size g)] ++ line_ops ++ more, final_y)
      end
  end.

Definition _create_single_body_slide_with_headings
           (formatted_lines : list line_item) (reference : str) (line_height : Q)
  : list canvas_op :=
  [setFillColor BG_COLOR; rect 0 0 SLIDE_WIDTH SLIDE_HEIGHT true false]
    ++ fst (render_items line_height 0 (SLIDE_HEIGHT - MARGIN_TOP)%Q formatted_lines)
    ++ _draw_footer (reference ++ lit " | ESV")
    ++ [showPage].

Definition _create_title_slide (reference : str) : list canvas_op :=
  let ref_width :=
    stringWidth reference (_get_bold_font g) (inject_Z (title_font_size g)) in
  let ref_x := ((SLIDE_WIDTH - ref_width) / 2)%Q in
  let ref_y := (SLIDE_HEIGHT / 2)%Q in
  [setFillColor BG_COLOR; rect 0 0 SLIDE_WIDTH SLIDE_HEIGHT true false;
   setFillColor TEXT_COLOR;
   setFont (_get_bold_font g) (inject_Z (title_font_size g));
   drawString ref_x ref_y reference]
    ++ _draw_footer (lit "ESV")
    ++ [showPage].

End Drawing.

(** The strings drawn by a list of calls, in order. *)
Definition drawn_strings (ops : list canvas_op) : list str :=
  flat_map (fun op => match op with drawString _ _ text => [text] | _ => [] end)
           ops.

(** Every string is drawn above the height [bound]. *)
Definition drawn_above (bound : Q) (ops : list canvas_op) : Prop :=
  Forall (fun op => match op with
                    | drawString _ y _ => (bound < y)%Q
                    | _ => True
                    end) ops.

(** Every string is drawn at the height [bound] or above. *)
Definition drawn_from (bound : Q) (ops : list canvas_op) : Prop :=
  Forall (fun op => match op with
                    | drawString _ y _ => (bound <= y)%Q
                    | _ => True
                    end) ops.

(** What a segment shows: the text, or the digits without the brackets. *)
Definition segment_shown (sg : segment) : str :=
  match sg with
  | Text s => s
  | VerseNumber digits => digits
  end.

(** The units of the lines drawn from index [i] of a slide on. *)
Definition units_from (i : nat) (items : slide) : Z :=
  if (0 <? i)%nat then units_after_first items else slide_units items.

(** A break between two slides is called for: the line that opens the second
    slide did not fit on the first.  Before a body or poetry line the first
    slide has used the whole budget; before a heading fewer than three units
    are left. *)
Definition break_called_for (max_lines : Z) (s1 s2 : slide) : Prop :=
  match s2 with
  | [] => True
  | it :: _ =>
      if is_heading_item it
      then (max_lines < slide_units s1 + 3)%Z
      else (max_lines <= slide_units s1)%Z
  end.

Fixpoint breaks_called_for (max_lines : Z) (slides : list slide) : Prop :=
  match slides with
  | s1 :: (s2 :: _) as rest =>
      break_called_for max_lines s1 s2 /\ breaks_called_for max_lines rest
  | _ => True
  end.

(** ** The passage source: [ESVAPIClient.fetch_passage] *)





(** * Properties *)

(** ** Strings *)

Lemma nonempty_true {A} (l : list A) : nonempty l = true <-> l <> [].
Proof. destruct l; simpl; split; congruence. Qed.

Lemma nonempty_app_r {A} (l : list A) (x : A) : nonempty (l ++ [x]) = true.
Proof. destruct l; reflexivity. Qed.

Lemma split_ws_from_word (w s cur : str) :
  forallb nonspace w = true ->
  split_ws_from (w ++ s) cur = split_ws_from s (cur ++ w).
Proof.
  revert cur. induction w as [|c w IH]; intros cur Hw; simpl.
  - now rewrite app_nil_r.
  - simpl in Hw. apply andb_prop in Hw as [Hc Hw].
    unfold nonspace in Hc. apply negb_true_iff in Hc. rewrite Hc.
    rewrite IH by assumption. now rewrite <- app_assoc.
Qed.

Lemma split_ws_from_words (s cur : str) :
  forallb nonspace cur = true -> Forall is_word (split_ws_from s cur).
Proof.
  revert cur. induction s as [|c s IH]; intros cur Hcur; simpl.
  - destruct cur as [|x cur]; simpl; constructor; [|constructor].
    split; [discriminate | assumption].
  - destruct (py_isspace c) eqn:Hc.
    + destruct cur as [|x cur]; simpl.
      * now apply IH.
      * constructor; [split; [discriminate | assumption] | now apply IH].
    + apply IH. rewrite forallb_app, Hcur. simpl.
      unfold nonspace. now rewrite Hc.
Qed.

Lemma split_ws_words (s : str) : Forall is_word (split_ws s).
Proof. now apply split_ws_from_words. Qed.

Lemma split_ws_word (w : str) : is_word w -> split_ws w = [w].
Proof.
  intros [Hne Hw]. unfold split_ws.
  pose proof (split_ws_from_word w [] [] Hw) as E.
  rewrite app_nil_r in E. rewrite E. simpl.
  destruct w; [congruence | reflexivity].
Qed.

(** Splitting a line that was joined from words gives the words back. *)
Lemma split_ws_join (ws : list str) :
  Forall is_word ws -> split_ws (join_sp ws) = ws.
Proof.
  induction ws as [|w ws IH]; intros Hws; [reflexivity|].
  inversion Hws as [|? ? Hw Hrest]; subst.
  destruct ws as [|w2 ws].
  - now apply split_ws_word.
  - change (join_sp (w :: w2 :: ws)) with (w ++ [SPACE] ++ join_sp (w2 :: ws)).
    destruct Hw as [Hne Hw]. unfold split_ws.
    rewrite split_ws_from_word by assumption. simpl.
    destruct w as [|c w]; [congruence|]. simpl.
    f_equal. now apply IH.
Qed.

(** ** Line wrapper *)

Section WrapFacts.

Variable measure : str -> Q.
Variable max_width : Q.

Lemma wrap_loop_words (words lines cur : list str) :
  Forall is_word words -> Forall is_word cur ->
  List.concat (List.map split_ws (wrap_loop measure max_width words lines cur))
  = List.concat (List.map split_ws lines) ++ cur ++ words.
Proof.
  revert lines cur. induction words as [|word rest IH]; intros lines cur Hw Hc.
  - simpl. destruct cur as [|c cur]; simpl.
    + now rewrite app_nil_r.
    + rewrite map_app, concat_app. simpl.
      rewrite split_ws_join by assumption. now rewrite !app_nil_r.
  - inversion Hw as [|? ? Hword Hrest]; subst. simpl.
    destruct (Qle_bool _ _).
    + rewrite IH; [now rewrite <- app_assoc | assumption |].
      apply Forall_app; split; [assumption | now constructor].
    + rewrite IH; [| assumption | now constructor].
      destruct cur as [|c cur]; simpl; [reflexivity|].
      rewrite map_app, concat_app. simpl.
      rewrite split_ws_join by assumption.
      now rewrite app_nil_r, <- app_assoc.
Qed.

Lemma wrap_loop_nonempty (words lines cur : list str) :
  nonempty (wrap_loop measure max_width words lines cur)
  = nonempty lines || nonempty cur || nonempty words.
Proof.
  revert lines cur. induction words as [|word rest IH]; intros lines cur.
  - simpl. destruct cur, lines; reflexivity.
  - simpl. destruct (Qle_bool _ _); rewrite IH.
    + rewrite nonempty_app_r. now rewrite !orb_true_r.
    + simpl. now rewrite !orb_true_r.
Qed.

Lemma wrap_loop_fits (all_words words lines cur : list str) :
  Forall is_word all_words -> incl words all_words ->
  Forall (line_fits measure max_width all_words) lines ->
  (cur = [] \/ line_fits measure max_width all_words (join_sp cur)) ->
  Forall (line_fits measure max_width all_words)
       (wrap_loop measure max_width words lines cur).
Proof.
  intros Hall. revert lines cur.
  induction words as [|word rest IH]; intros lines cur Hincl Hlines Hcur.
  - simpl. destruct cur as [|c cur]; simpl; [assumption|].
    apply Forall_app; split; [assumption|].
    constructor; [|constructor]. destruct Hcur as [Hcur|Hcur]; [discriminate | exact Hcur].
  - assert (Hin : In word all_words) by (apply Hincl; now left).
    assert (Hrest : incl rest all_words)
      by (intros x Hx; apply Hincl; now right).
    simpl. destruct (Qle_bool _ _) eqn:Hfit.
    + apply IH; [assumption | assumption |].
      right. left. now apply Qle_bool_iff.
    + apply IH; [assumption | |].
      * destruct cur as [|c cur]; simpl; [assumption|].
        apply Forall_app; split; [assumption|].
        constructor; [|constructor].
        destruct Hcur as [Hcur|Hcur]; [discriminate | exact Hcur].
      * right. change (join_sp [word]) with word.
        destruct (Qlt_le_dec max_width (measure word)) as [Hlt|Hle].
        -- right. split; [assumption|]. split; [|assumption].
           apply split_ws_word. rewrite Forall_forall in Hall. now apply Hall.
        -- now left.
Qed.

End WrapFacts.

(** C6. The words of the lines that [_wrap_text] returns, read in order, are
    exactly the whitespace-separated words of the text; and the output has a
    line exactly when the text has a word. *)
Theorem wrap_keeps_the_words (measure : str -> Q) (max_width : Q) (text : str) :
  List.concat (List.map split_ws (_wrap_text measure max_width text)) = split_ws text
  /\ nonempty (_wrap_text measure max_width text) = nonempty (split_ws text).
Proof.
  unfold _wrap_text. split.
  - rewrite wrap_loop_words; [reflexivity | apply split_ws_words | constructor].
  - now rewrite wrap_loop_nonempty.
Qed.

(** Every line is a join of words. *)
Lemma wrap_loop_joined (measure : str -> Q) (max_width : Q) (words : list str) :
  forall lines cur,
    Forall is_word words -> Forall is_word cur ->
    Forall (fun line => exists ws, Forall is_word ws /\ line = join_sp ws) lines ->
    Forall (fun line => exists ws, Forall is_word ws /\ line = join_sp ws)
           (wrap_loop measure max_width words lines cur).
Proof.
  induction words as [|word rest IH]; intros lines cur Hw Hc Hl; simpl.
  - destruct cur as [|c cur]; simpl; [assumption|].
    apply Forall_app; split; [assumption|].
    constructor; [|constructor]. now exists (c :: cur).
  - inversion Hw as [|? ? Hword Hrest]; subst.
    destruct (Qle_bool _ _).
    + apply IH; [assumption | | assumption].
      apply Forall_app; split; [assumption | now constructor].
    + apply IH; [assumption | now constructor |].
      destruct cur as [|c cur]; simpl; [assumption|].
      apply Forall_app; split; [assumption|].
      constructor; [|constructor]. now exists (c :: cur).
Qed.

(** When the measurement of a line is never below that of one of its words, a
    word wider than [max_width] is the only word of its line. *)
Corollary oversized_word_alone (measure : str -> Q) (max_width : Q) (text : str) :
  (forall ws w, In w ws -> (measure w <= measure (join_sp ws))%Q) ->
  forall line w,
    In line (_wrap_text measure max_width text) ->
    In w (split_ws line) -> (max_width < measure w)%Q ->
    line = w.
Proof.
  intros Hmono line w Hline Hw Hwide.
  pose proof (wrap_loop_fits measure max_width (split_ws text) (split_ws text)
                [] [] (split_ws_words text) (incl_refl _) (Forall_nil _)
                (or_introl eq_refl)) as Hfits.
  pose proof (wrap_loop_joined measure max_width (split_ws text) [] []
                (split_ws_words text) (Forall_nil _) (Forall_nil _)) as Hjoined.
  rewrite Forall_forall in Hfits, Hjoined.
  destruct (Hfits line Hline) as [Hle|(_ & Hsingle & _)].
  - destruct (Hjoined line Hline) as (ws & Hws & ->).
    rewrite split_ws_join in Hw by assumption.
    exfalso. apply (Qlt_irrefl max_width).
    eapply Qlt_le_trans; [exact Hwide|].
    eapply Qle_trans; [apply Hmono; exact Hw | exact Hle].
  - rewrite Hsingle in Hw. destruct Hw as [Hw|[]]. exact Hw.
Qed.

Lemma join_sp_length (ws : list str) (w : str) :
  In w ws -> (List.length w <= List.length (join_sp ws))%nat.
Proof.
  induction ws as [|p ws IH]; [contradiction|].
  destruct ws as [|q ws].
  - intros [->|[]]. apply Nat.le_refl.
  - change (join_sp (p :: q :: ws)) with (p ++ [SPACE] ++ join_sp (q :: ws)).
    rewrite !length_app. intros [->|Hin]; [lia|].
    specialize (IH Hin). lia.
Qed.

(** A fixed-pitch measurement never gives a line less than one of its words. *)
Lemma per_char_monotone (k : Z) :
  (0 <= k)%Z ->
  forall ws w, In w ws -> (per_char k w <= per_char k (join_sp ws))%Q.
Proof.
  intros Hk ws w Hin. unfold per_char. rewrite <- Zle_Qle.
  apply Z.mul_le_mono_nonneg_l; [assumption|].
  apply Nat2Z.inj_le. now apply join_sp_length.
Qed.

(** C5, as the code has it.  For every text, width and measurement, every line
    that [_wrap_text] returns measures at most [max_width], unless the line
    is one single word of the text, whole, whose own measure exceeds
    [max_width].  When moreover the measurement never gives a line less than
    one of its words, every word of the text that is wider than [max_width]
    is a line of the output, and a line that holds it holds nothing else. *)
Theorem wrap_lines_fit_and_wide_words_stand_alone
        (measure : str -> Q) (max_width : Q) (text : str) :
  Forall (fun line =>
            (measure line <= max_width)%Q
            \/ (In line (split_ws text) /\ split_ws line = [line]
                /\ (max_width < measure line)%Q))
         (_wrap_text measure max_width text)
  /\ ((forall ws w, In w ws -> (measure w <= measure (join_sp ws))%Q) ->
      forall w,
        In w (split_ws text) -> (max_width < measure w)%Q ->
        In w (_wrap_text measure max_width text)
        /\ forall line,
            In line (_wrap_text measure max_width text) ->
            In w (split_ws line) -> line = w).
Proof.
  split.
  - change (Forall (line_fits measure max_width (split_ws text))
                   (wrap_loop measure max_width (split_ws text) [] [])).
    apply wrap_loop_fits.
    + apply split_ws_words.
    + apply incl_refl.
    + constructor.
    + now left.
  - intros Hmono w Hw Hwide.
    assert (Halone : forall line,
               In line (_wrap_text measure max_width text) ->
               In w (split_ws line) -> line = w).
    { intros line Hline Hin.
      now apply (oversized_word_alone measure max_width text Hmono line w). }
    split; [|exact Halone].
    pose proof (wrap_loop_words measure max_width (split_ws text) [] []
                  (split_ws_words text) (Forall_nil _)) as Hwords.
    cbn [List.map List.concat app] in Hwords.
    fold (_wrap_text measure max_width text) in Hwords.
    rewrite <- Hwords in Hw. apply in_concat in Hw as (ws & Hws & Hin).
    apply in_map_iff in Hws as (line & <- & Hline).
    now rewrite <- (Halone line Hline Hin).
Qed.

Lemma wrap_lines_fit_and_wide_words_stand_alone_witness :
  In (lit "everlasting")
     (_wrap_text ten_per_char 50 (lit "an everlasting joy"))
  /\ forall line,
      In line (_wrap_text ten_per_char 50 (lit "an everlasting joy")) ->
      In (lit "everlasting") (split_ws line) -> line = lit "everlasting".
Proof.
  apply (proj2 (wrap_lines_fit_and_wide_words_stand_alone
                  ten_per_char 50 (lit "an everlasting joy"))).
  - apply per_char_monotone. lia.
  - vm_compute. tauto.
  - reflexivity.
Defined.

(** C5, as the specification has it, fails for a measurement that gives the
    line [a b] less than its word [b]: the word is wider than the width and
    shares its line. *)
Lemma wide_word_can_share_a_line :
  _wrap_text lone_b_measure 50 (lit "a b") = [lit "a b"]
  /\ In (lit "b") (split_ws (lit "a b"))
  /\ (50 < lone_b_measure (lit "b"))%Q
  /\ ~ In (lit "b") (_wrap_text lone_b_measure 50 (lit "a b")).
Proof.
  assert (E : _wrap_text lone_b_measure 50 (lit "a b") = [lit "a b"])
    by (vm_compute; reflexivity).
  rewrite E. repeat split.
  - vm_compute. tauto.
  - intros [H|[]]. discriminate H.
Qed.

(** ** Paginator *)

Section PaginateFacts.

Variable max_lines : Z.

Lemma gtb_false (a b : Z) : (a >? b)%Z = false <-> (a <= b)%Z.
Proof. rewrite Z.gtb_ltb. apply Z.ltb_ge. Qed.

Lemma gtb_true (a b : Z) : (a >? b)%Z = true <-> (b < a)%Z.
Proof. rewrite Z.gtb_ltb. apply Z.ltb_lt. Qed.

Lemma units_after_first_app (s : slide) (it : line_item) :
  units_after_first (s ++ [it])
  = (units_after_first s + (if is_heading_item it then 2 else 1))%Z.
Proof.
  induction s as [|x s IH]; cbn [app units_after_first]; [|rewrite IH];
    destruct (is_heading_item it); lia.
Qed.

Lemma slide_units_app (s : slide) (it : line_item) :
  slide_units (s ++ [it])
  = (slide_units s
     + (if is_heading_item it then (if nonempty s then 2 else 1) else 1))%Z.
Proof.
  destruct s as [|x s]; cbn [app slide_units nonempty units_after_first].
  - destruct (is_heading_item it); lia.
  - rewrite units_after_first_app. destruct (is_heading_item it); lia.
Qed.

(** The inner loop moves a prefix of the lines onto the slide. *)
Lemma fill_slide_split (lines : list line_item) :
  forall cur n cur' n' rest,
    fill_slide max_lines lines cur n = (cur', n', rest) ->
    exists taken, cur' = cur ++ taken /\ lines = taken ++ rest.
Proof.
  induction lines as [|it lines IH]; intros cur n cur' n' rest E; simpl in E.
  - inversion E; subst. exists []. now rewrite app_nil_r.
  - destruct (is_heading_item it).
    + destruct (_ && _).
      * inversion E; subst. exists []. now rewrite app_nil_r.
      * apply IH in E as (taken & -> & ->). exists (it :: taken).
        now rewrite <- app_assoc.
    + destruct (_ >? _)%Z.
      * inversion E; subst. exists []. now rewrite app_nil_r.
      * apply IH in E as (taken & -> & ->). exists (it :: taken).
        now rewrite <- app_assoc.
Qed.

Lemma fill_slide_budget (lines : list line_item) :
  forall cur n cur' n' rest,
    slide_state_ok max_lines cur n ->
    fill_slide max_lines lines cur n = (cur', n', rest) ->
    slide_state_ok max_lines cur' n'.
Proof.
  induction lines as [|it lines IH]; intros cur n cur' n' rest [Hn Hok] E;
    simpl in E.
  - inversion E; subst. now split.
  - destruct (is_heading_item it) eqn:Hit.
    + destruct (_ && _) eqn:Hbreak.
      * inversion E; subst. now split.
      * apply IH in E; [assumption|]. split.
        { rewrite slide_units_app, Hit. now subst n. }
        destruct cur as [|x cur].
        -- right. right. destruct it; try discriminate. now exists content.
        -- right. left. cbn [nonempty] in Hbreak |- *.
           rewrite andb_true_r in Hbreak. apply gtb_false in Hbreak.
           destruct (match lines with [] => false | next :: _ => is_body_item next end);
             lia.
    + destruct (_ >? _)%Z eqn:Hbreak.
      * inversion E; subst. now split.
      * apply IH in E; [assumption|]. split.
        { rewrite slide_units_app, Hit. now subst n. }
        right. left. apply gtb_false in Hbreak. lia.
Qed.

(** With a budget of one line or more, the first line of a fresh slide is
    always placed. *)
Lemma fill_slide_progress (it : line_item) (lines : list line_item) :
  forall cur' n' rest,
    (1 <= max_lines)%Z ->
    fill_slide max_lines (it :: lines) [] 0%Z = (cur', n', rest) ->
    cur' <> [] /\ (List.length rest <= List.length lines)%nat.
Proof.
  intros cur' n' rest Hmax E. cbn [fill_slide nonempty] in E.
  assert (Hb : (0 + 1 >? max_lines)%Z = false) by (apply gtb_false; lia).
  destruct (is_heading_item it);
    [rewrite andb_false_r in E | rewrite Hb in E];
    apply fill_slide_split in E as (taken & -> & ->);
    (split; [discriminate | rewrite length_app; lia]).
Qed.

(** A heading is placed on an empty slide whatever the budget. *)
Lemma fill_slide_heading_first (content : str) (lines : list line_item) :
  forall cur' n' rest,
    fill_slide max_lines (Heading content :: lines) [] 0%Z = (cur', n', rest) ->
    cur' <> [] /\ (List.length rest <= List.length lines)%nat.
Proof.
  intros cur' n' rest E. cbn [fill_slide nonempty is_heading_item] in E.
  rewrite andb_false_r in E.
  apply fill_slide_split in E as (taken & -> & ->). split.
  - discriminate.
  - rewrite length_app. lia.
Qed.

(** Without a budget, a body or poetry line is never placed on an empty
    slide: the inner loop breaks at once and [line_index] stays. *)
Lemma fill_slide_stuck (it : line_item) (lines : list line_item) :
  (max_lines < 1)%Z -> is_heading_item it = false ->
  fill_slide max_lines (it :: lines) [] 0%Z = ([], 0%Z, it :: lines).
Proof.
  intros Hmax Hit. cbn [fill_slide]. rewrite Hit.
  assert (Hb : (0 + 1 >? max_lines)%Z = true) by (apply gtb_true; lia).
  now rewrite Hb.
Qed.

Lemma paginate_loop_S (fuel : nat) (lines : list line_item) :
  lines <> [] ->
  paginate_loop max_lines (S fuel) lines
  = let '(current_slide, _, rest) := fill_slide max_lines lines [] 0%Z in
    let '(slides, ended) := paginate_loop max_lines fuel rest in
    (if nonempty current_slide then current_slide :: slides else slides, ended).
Proof. destruct lines; [congruence | reflexivity]. Qed.

(** The outer loop then repeats the same iteration for ever. *)
Lemma paginate_loop_stuck (it : line_item) (lines : list line_item) :
  (max_lines < 1)%Z -> is_heading_item it = false ->
  forall fuel, paginate_loop max_lines fuel (it :: lines) = ([], false).
Proof.
  intros Hmax Hit. induction fuel as [|fuel IH]; [reflexivity|].
  rewrite paginate_loop_S by discriminate.
  rewrite fill_slide_stuck by assumption. now rewrite IH.
Qed.

(** With a budget of one line or more, [len(formatted_lines)] iterations of
    the outer loop end it, and the slides hold the lines in order. *)
Lemma paginate_loop_ends (fuel : nat) :
  forall lines,
    (1 <= max_lines)%Z -> (List.length lines <= fuel)%nat ->
    exists slides,
      paginate_loop max_lines fuel lines = (slides, true)
      /\ List.concat slides = lines.
Proof.
  induction fuel as [|fuel IH]; intros lines Hmax Hlen.
  - destruct lines; [|simpl in Hlen; lia]. now exists [].
  - destruct lines as [|it lines]; [now exists []|].
    rewrite paginate_loop_S by discriminate.
    destruct (fill_slide max_lines (it :: lines) [] 0%Z) as [[cur n] rest] eqn:E.
    pose proof E as E0. apply fill_slide_progress in E0 as [Hne Hrest]; [|assumption].
    apply fill_slide_split in E as (taken & -> & Hlines). simpl in Hne |- *.
    destruct (IH rest Hmax) as (slides & -> & Hcat); [simpl in Hlen; lia|].
    destruct taken as [|x taken]; [congruence|].
    exists ((x :: taken) :: slides). split; [reflexivity|].
    simpl. rewrite Hcat. now rewrite Hlines.
Qed.

(** Every slide handed over is non-empty and within the budget, or is one
    heading placed by force. *)
Lemma paginate_loop_budget (fuel : nat) :
  forall lines, Forall (slide_ok max_lines) (fst (paginate_loop max_lines fuel lines)).
Proof.
  induction fuel as [|fuel IH]; intros lines.
  - destruct lines; constructor.
  - destruct lines as [|it lines]; [constructor|].
    rewrite paginate_loop_S by discriminate.
    destruct (fill_slide max_lines (it :: lines) [] 0%Z) as [[cur n] rest] eqn:E.
    specialize (IH rest).
    destruct (paginate_loop max_lines fuel rest) as [slides ended].
    simpl in IH |- *.
    destruct cur as [|x cur]; [exact IH|]. simpl.
    constructor; [|exact IH].
    apply fill_slide_budget in E; [|split; [reflexivity | now left]].
    destruct E as [Hn [Hc|[Hc|Hc]]].
    + discriminate.
    + split; [discriminate | left; lia].
    + split; [discriminate | now right].
Qed.

End PaginateFacts.

(** *** The orphan-heading rule *)

Section OrphanRule.

Variable max_lines : Z.
Hypothesis room_for_two : (2 <= max_lines)%Z.

Variables (h b : str) (post : list line_item).

(** One run of the inner loop over lines that hold the pair: it breaks
    before the heading at the latest, or it places both lines. *)
Lemma fill_slide_pair (pre : list line_item) :
  forall cur n cur' n' rest,
    (cur = [] -> n = 0%Z) ->
    fill_slide max_lines (pre ++ Heading h :: Body b :: post) cur n
    = (cur', n', rest) ->
    (exists p1 p2,
        pre = p1 ++ p2 /\ cur' = cur ++ p1
        /\ rest = p2 ++ Heading h :: Body b :: post
        /\ (p2 = [] -> cur' <> []))
    \/ (exists taken,
           cur' = cur ++ pre ++ Heading h :: Body b :: taken
           /\ post = taken ++ rest).
Proof.
  induction pre as [|it pre IH]; intros cur n cur' n' rest Hn E.
  - cbn [app fill_slide is_heading_item is_body_item] in E.
    destruct (_ && _) eqn:Hbreak.
    + left. exists [], []. inversion E; subst.
      apply andb_prop in Hbreak as [_ Hne]. apply nonempty_true in Hne.
      repeat split; [now rewrite app_nil_r | now intros _].
    + right.
      assert (Hfit : (n + (if nonempty cur then 2 else 1) + 1 >? max_lines)%Z = false).
      { apply gtb_false. destruct cur as [|x cur]; cbn [nonempty] in *.
        - rewrite (Hn eq_refl). lia.
        - rewrite andb_true_r in Hbreak. apply gtb_false in Hbreak. lia. }
      rewrite Hfit in E.
      apply fill_slide_split in E as (taken & -> & ->).
      exists taken. split; [|reflexivity].
      now rewrite <- !app_assoc.
  - cbn [app fill_slide] in E.
    assert (Hrec : forall m,
               fill_slide max_lines (pre ++ Heading h :: Body b :: post)
                 (cur ++ [it]) m = (cur', n', rest) ->
               (exists p1 p2,
                   it :: pre = p1 ++ p2 /\ cur' = cur ++ p1
                   /\ rest = p2 ++ Heading h :: Body b :: post
                   /\ (p2 = [] -> cur' <> []))
               \/ (exists taken,
                      cur' = cur ++ (it :: pre) ++ Heading h :: Body b :: taken
                      /\ post = taken ++ rest)).
    { intros m Em. apply IH in Em.
      - destruct Em as [(p1 & p2 & -> & -> & -> & Hp)|(taken & -> & ->)].
        + left. exists (it :: p1), p2. rewrite <- app_assoc in *.
          now repeat split.
        + right. exists taken. rewrite <- app_assoc. now split.
      - intros Habs. now destruct cur. }
    assert (Hstop : (cur', n', rest)
                    = (cur, n, it :: pre ++ Heading h :: Body b :: post) ->
                    exists p1 p2,
                      it :: pre = p1 ++ p2 /\ cur' = cur ++ p1
                      /\ rest = p2 ++ Heading h :: Body b :: post
                      /\ (p2 = [] -> cur' <> [])).
    { intros Es. inversion Es; subst. exists [], (it :: pre).
      repeat split; [now rewrite app_nil_r | discriminate]. }
    destruct (is_heading_item it).
    + destruct (_ && _); [left; now apply Hstop | now apply Hrec in E].
    + destruct (_ >? _)%Z; [left; now apply Hstop | now apply Hrec in E].
Qed.

(** The whole pagination: the pair sits on one slide, at its place. *)
Lemma paginate_loop_pair (fuel : nat) :
  forall pre,
    (List.length (pre ++ Heading h :: Body b :: post) <= fuel)%nat ->
    exists slides,
      paginate_loop max_lines fuel (pre ++ Heading h :: Body b :: post)
      = (slides, true)
      /\ exists before s1 s2 after,
          slides = before ++ (s1 ++ Heading h :: Body b :: s2) :: after
          /\ List.concat before ++ s1 = pre.
Proof.
  assert (Hone : (1 <= max_lines)%Z) by lia.
  induction fuel as [|fuel IH]; intros pre Hlen.
  - rewrite length_app in Hlen. simpl in Hlen. lia.
  - rewrite paginate_loop_S by (destruct pre; discriminate).
    destruct (fill_slide max_lines (pre ++ Heading h :: Body b :: post) [] 0%Z)
      as [[cur n] rest] eqn:E.
    assert (Hprog : cur <> []
                    /\ (S (List.length rest)
                        <= List.length (pre ++ Heading h :: Body b :: post))%nat).
    { destruct (pre ++ Heading h :: Body b :: post) as [|it lines] eqn:El.
      - destruct pre; discriminate.
      - apply fill_slide_progress in E; [|assumption]. simpl. split; [tauto | lia]. }
    destruct Hprog as [Hne Hrest].
    apply fill_slide_pair in E; [|reflexivity].
    destruct E as [(p1 & p2 & -> & -> & -> & Hp)|(taken & -> & ->)].
    + destruct (IH p2) as (slides & -> & before & s1 & s2 & after & -> & Hcat);
        [lia|].
      simpl in Hne |- *. apply nonempty_true in Hne. rewrite Hne.
      eexists. split; [reflexivity|].
      exists (p1 :: before), s1, s2, after. split; [reflexivity|].
      simpl. now rewrite <- app_assoc, Hcat.
    + destruct (paginate_loop_ends max_lines fuel rest Hone) as (slides & -> & _);
        [lia|].
      simpl. destruct pre; simpl.
      * eexists. split; [reflexivity|].
        exists [], [], taken, slides. now split.
      * eexists. split; [reflexivity|].
        exists [], (l :: pre), taken, slides. now split.
Qed.

End OrphanRule.

(** C3. When a heading is immediately followed by a body line and the budget
    holds a heading, its gap and one body line, the pagination ends and puts
    both lines on the same slide, the body line right after the heading:
    no break falls between them.  The heading either continues the slide
    ([s1] non-empty) or opens it ([s1] empty). *)
Theorem heading_and_body_stay_together
        (max_lines : Z) (pre : list line_item) (h b : str) (post : list line_item)
        (fuel : nat) :
  (3 <= max_lines)%Z ->
  (List.length (pre ++ Heading h :: Body b :: post) <= fuel)%nat ->
  exists slides,
    paginate_loop max_lines fuel (pre ++ Heading h :: Body b :: post) = (slides, true)
    /\ exists before s1 s2 after,
        slides = before ++ (s1 ++ Heading h :: Body b :: s2) :: after
        /\ List.concat before ++ s1 = pre.
Proof.
  intros Hmax Hfuel. apply paginate_loop_pair; [lia | assumption].
Qed.

Lemma heading_and_body_stay_together_witness :
  exists slides,
    paginate_loop 3 4 ([Body (lit "a"); Body (lit "b")]
                         ++ Heading (lit "h") :: Body (lit "c") :: [])
    = (slides, true)
    /\ exists before s1 s2 after,
        slides = before ++ (s1 ++ Heading (lit "h") :: Body (lit "c") :: s2) :: after
        /\ List.concat before ++ s1 = [Body (lit "a"); Body (lit "b")].
Proof.
  apply (heading_and_body_stay_together 3 [Body (lit "a"); Body (lit "b")]
           (lit "h") (lit "c") [] 4); [lia | simpl; lia].
Defined.

(** C4. Every slide that the paginator hands over is non-empty, and its units
    (one a body or poetry line, two a heading, one a heading that opens the
    slide) are at most [max_lines = int(available_height / line_height)],
    unless the slide is a single heading that was placed on an empty slide. *)
Theorem slides_within_budget
        (fuel : nat) (available_height line_height : Q) (lines : list line_item) :
  Forall (slide_ok (int_trunc (available_height / line_height)))
         (emitted (paginate fuel available_height line_height lines)).
Proof.
  unfold paginate. destruct lines as [|it lines]; [constructor|].
  destruct (Qeq_bool line_height 0); [constructor|].
  pose proof (paginate_loop_budget (int_trunc (available_height / line_height))
                fuel (it :: lines)) as H.
  destruct (paginate_loop _ fuel (it :: lines)) as [slides ended].
  now destruct ended.
Qed.


(** C2. At a font size of 600 points the line height is 900 and the budget
    [int(810 / 900)] is zero.  The body line of the passage is then never
    placed: whatever the number of iterations, the outer loop has not ended
    and no slide has been handed over. *)
Theorem body_line_without_budget_never_placed (fuel : nat) :
  _create_body_slides ascii_digit (per_char 40) 600 fuel (lit "[1] In the beginning")
  = StillRunning [].
Proof.
  unfold _create_body_slides.
  set (fl := format_lines _ _ _). vm_compute in fl. subst fl.
  unfold paginate.
  set (q := Qeq_bool _ _). vm_compute in q. subst q. cbv iota.
  set (m := int_trunc _). vm_compute in m. subst m. cbv zeta.
  rewrite paginate_loop_stuck; [reflexivity | lia | reflexivity].
Qed.

(** ** Wrapped poetry lines *)

Lemma poetry_items_indent (leading_spaces i : nat) (wrapped : list str) :
  poetry_items leading_spaces i wrapped = List.map (Poetry leading_spaces) wrapped.
Proof.
  revert i. induction wrapped as [|line rest IH]; intros i; simpl; [reflexivity|].
  rewrite IH. now destruct (i =? 0)%nat.
Qed.

(** C1. Every sub-line of a wrapped poetry line is recorded with the leading
    spaces of the line, the continuation lines as well as the first: a line
    indented by two spaces that wraps into three gives three tuples with an
    indent of two. *)
Theorem poetry_continuation_lines_keep_indent :
  (forall (measure : str -> Q) (body_font_size : Q) (content : str),
      exists wrapped,
        format_element measure body_font_size (poetry, content)
        = List.map (Poetry (List.length content
                            - List.length (lstrip_spaces content))) wrapped)
  /\ format_element (per_char 40) 64
       (poetry,
        lit "  [2] He makes me lie down in green pastures. He leads me beside still waters.")
     = [Poetry 2 (lit "[2] He makes me lie down in green");
        Poetry 2 (lit "pastures. He leads me beside still");
        Poetry 2 (lit "waters.")].
Proof.
  split.
  - intros measure body_font_size content. eexists.
    cbn [format_element]. apply poetry_items_indent.
  - vm_compute. reflexivity.
Qed.

(** ** Inline verse segmenter *)

Section MarkerFacts.

Variable is_digit : char -> bool.

Lemma match_digits_shape (t : str) :
  forall digits rest,
    match_digits is_digit t = Some (digits, rest) ->
    t = digits ++ RBRACKET :: rest.
Proof.
  induction t as [|c t IH]; intros digits rest E; simpl in E; [discriminate|].
  destruct (is_digit c); [|discriminate].
  destruct (match_digits is_digit t) as [[ds r]|].
  - inversion E; subst. simpl. f_equal. now apply IH.
  - destruct t as [|c' t']; [discriminate|].
    destruct (c' =? RBRACKET)%N eqn:Hc; [|discriminate].
    apply N.eqb_eq in Hc. inversion E; subst. reflexivity.
Qed.

Lemma match_at_shape (s digits rest : str) :
  match_at is_digit s = Some (digits, rest) -> s = marker digits ++ rest.
Proof.
  destruct s as [|c t]; simpl; [discriminate|].
  destruct (c =? LBRACKET)%N eqn:Hc; [|discriminate].
  apply N.eqb_eq in Hc. intros E. apply match_digits_shape in E. subst.
  unfold marker. simpl. now rewrite <- app_assoc.
Qed.

Lemma marker_length (digits rest : str) :
  List.length (marker digits ++ rest)
  = (List.length digits + 2 + List.length rest)%nat.
Proof. unfold marker. simpl. rewrite !length_app. simpl. lia. Qed.

(** More steps than the line has characters change nothing. *)
Lemma finditer_fuel_enough (fuel1 : nat) :
  forall fuel2 pos s,
    (List.length s <= fuel1)%nat -> (List.length s <= fuel2)%nat ->
    finditer_from is_digit fuel1 pos s = finditer_from is_digit fuel2 pos s.
Proof.
  induction fuel1 as [|fuel1 IH]; intros fuel2 pos s H1 H2.
  - destruct s; [|simpl in H1; lia]. now destruct fuel2.
  - destruct s as [|c t]; [now destruct fuel2|].
    destruct fuel2 as [|fuel2]; [simpl in H2; lia|].
    cbn [finditer_from].
    destruct (match_at is_digit (c :: t)) as [[ds rest]|] eqn:E.
    + apply match_at_shape in E. f_equal.
      assert (Hl : List.length (c :: t) = List.length (marker ds ++ rest))
        by now rewrite E.
      rewrite marker_length in Hl. simpl in Hl, H1, H2.
      apply IH; lia.
    + apply IH; simpl in *; lia.
Qed.

Lemma skipn_step (line : str) (pos : nat) (c : char) (t : str) :
  skipn pos line = c :: t -> skipn (S pos) line = t.
Proof.
  intros E. change (S pos) with (1 + pos)%nat.
  now rewrite <- skipn_skipn, E.
Qed.

Lemma skipn_shift (line s : str) (pos k : nat) :
  skipn pos line = s -> skipn (pos + k) line = skipn k s.
Proof. intros <-. now rewrite skipn_skipn, Nat.add_comm. Qed.

Lemma skipn_cons_lt (line : str) (pos : nat) (c : char) (t : str) :
  skipn pos line = c :: t -> (pos < List.length line)%nat.
Proof.
  intros E. apply (f_equal (@List.length _)) in E.
  rewrite length_skipn in E. simpl in E. lia.
Qed.

Lemma slice_skipn (line : str) (a b : nat) :
  (a <= b)%nat -> skipn a line = slice line a b ++ skipn b line.
Proof.
  intros Hab. unfold slice.
  replace (skipn b line) with (skipn (b - a) (skipn a line)).
  - now rewrite firstn_skipn.
  - rewrite skipn_skipn. f_equal. lia.
Qed.

Lemma slice_length (line : str) (a b : nat) :
  (a <= b)%nat -> (b <= List.length line)%nat ->
  List.length (slice line a b) = (b - a)%nat.
Proof.
  intros Hab Hb. unfold slice. rewrite length_firstn, length_skipn. lia.
Qed.

Lemma text_segment_slice (line : str) (a b : nat) :
  (a <= b)%nat -> (b <= List.length line)%nat ->
  text_segment (slice line a b)
  = if (a <? b)%nat then [Text (slice line a b)] else [].
Proof.
  intros Hab Hb. pose proof (slice_length line a b Hab Hb) as Hl.
  unfold text_segment. destruct (a <? b)%nat eqn:Hlt.
  - apply Nat.ltb_lt in Hlt. destruct (slice line a b); [simpl in Hl; lia | reflexivity].
  - apply Nat.ltb_ge in Hlt. destruct (slice line a b); [reflexivity | simpl in Hl; lia].
Qed.

Lemma text_segment_skipn (line : str) (a : nat) :
  add_remaining line [] a = text_segment (skipn a line).
Proof.
  unfold add_remaining, text_segment.
  pose proof (length_skipn a line) as Hl.
  destruct (a <? List.length line)%nat eqn:Hlt.
  - apply Nat.ltb_lt in Hlt. destruct (skipn a line); [simpl in Hl; lia | reflexivity].
  - apply Nat.ltb_ge in Hlt. destruct (skipn a line); [reflexivity | simpl in Hl; lia].
Qed.

Lemma add_remaining_app (line : str) (segments : list segment) (a : nat) :
  add_remaining line segments a = segments ++ add_remaining line [] a.
Proof.
  unfold add_remaining. destruct (a <? List.length line)%nat;
    [reflexivity | now rewrite app_nil_r].
Qed.

Lemma segmentation_reassemble (s : str) (segments : list segment) :
  segmentation is_digit s segments -> reassemble segments = s.
Proof.
  induction 1 as [g _|g digits rest segments _ _ _ IH].
  - unfold text_segment. destruct g; [reflexivity|]. simpl. now rewrite app_nil_r.
  - unfold reassemble in *. rewrite flat_map_app. simpl. rewrite IH.
    f_equal. unfold text_segment. destruct g; [reflexivity|]. simpl.
    now rewrite app_nil_r.
Qed.

(** The loop over the matches, from any position of the scan: [s] is the line
    from [pos] on, and no match starts between [last_end] and [pos]. *)
Lemma segment_loop_spec (fuel : nat) :
  forall line pos s acc last_end,
    (List.length s <= fuel)%nat ->
    skipn pos line = s ->
    (last_end <= pos)%nat ->
    (forall i, (last_end <= i)%nat -> (i < pos)%nat ->
               match_at is_digit (skipn i line) = None) ->
    exists segments,
      (let '(sg, le) :=
         segment_loop line (finditer_from is_digit fuel pos s) acc last_end in
       add_remaining line sg le) = acc ++ segments
      /\ segmentation is_digit (skipn last_end line) segments.
Proof.
  induction fuel as [|fuel IH]; intros line pos s acc last_end Hfuel Hs Hle Hnone.
  - (* the scan is at the end of the line *)
    destruct s; [|simpl in Hfuel; lia].
    exists (text_segment (skipn last_end line)). simpl. split.
    + now rewrite add_remaining_app, text_segment_skipn.
    + apply seg_no_match. intros i. rewrite skipn_skipn.
      destruct (Nat.lt_ge_cases (i + last_end) pos) as [Hlt|Hge].
      * apply Hnone; lia.
      * replace (i + last_end)%nat with (pos + (i + last_end - pos))%nat by lia.
        rewrite (skipn_shift _ _ _ _ Hs). now rewrite skipn_nil.
  - destruct s as [|c t].
    + exists (text_segment (skipn last_end line)). simpl. split.
      * now rewrite add_remaining_app, text_segment_skipn.
      * apply seg_no_match. intros i. rewrite skipn_skipn.
        destruct (Nat.lt_ge_cases (i + last_end) pos) as [Hlt|Hge].
        -- apply Hnone; lia.
        -- replace (i + last_end)%nat with (pos + (i + last_end - pos))%nat by lia.
           rewrite (skipn_shift _ _ _ _ Hs). now rewrite skipn_nil.
    + cbn [finditer_from].
      destruct (match_at is_digit (c :: t)) as [[ds rest]|] eqn:E.
      * (* a match at [pos] *)
        pose proof (match_at_shape _ _ _ E) as Hshape.
        pose proof (skipn_cons_lt _ _ _ _ Hs) as Hpos.
        assert (Hlen : List.length (c :: t)
                       = (List.length ds + 2 + List.length rest)%nat)
          by (rewrite Hshape; apply marker_length).
        assert (Hrest : skipn (pos + (List.length ds + 2)) line = rest).
        { rewrite (skipn_shift _ _ _ _ Hs), Hshape.
          replace (List.length ds + 2)%nat with (List.length (marker ds) + 0)%nat
            by (unfold marker; simpl; rewrite length_app; simpl; lia).
          now rewrite skipn_app, Nat.add_0_r, skipn_all, Nat.sub_diag. }
        cbn [segment_loop m_start m_end m_group1].
        destruct (IH line (pos + (List.length ds + 2))%nat rest
                    ((if (last_end <? pos)%nat
                      then acc ++ [Text (slice line last_end pos)]
                      else acc) ++ [VerseNumber ds])
                    (pos + (List.length ds + 2))%nat)
          as (segments & Heq & Hseg);
          [simpl in Hfuel, Hlen; lia | exact Hrest | lia | intros; lia |].
        exists (text_segment (slice line last_end pos) ++ VerseNumber ds :: segments).
        split.
        -- rewrite Heq, text_segment_slice by lia.
           destruct (last_end <? pos)%nat; now rewrite <- !app_assoc.
        -- rewrite (slice_skipn line _ _ Hle), Hs, Hshape.
           apply seg_match.
           ++ intros i Hi. rewrite slice_length in Hi by lia.
              rewrite <- Hshape, <- Hs, <- slice_skipn by assumption.
              rewrite skipn_skipn. apply Hnone; lia.
           ++ now rewrite <- Hshape.
           ++ now rewrite <- Hrest.
      * (* no match at [pos] *)
        destruct (IH line (S pos) t acc last_end) as (segments & Heq & Hseg);
          [simpl in Hfuel; lia | now apply skipn_step with c | lia | |].
        -- intros i Hi1 Hi2. destruct (Nat.eq_dec i pos) as [->|Hne].
           ++ now rewrite Hs.
           ++ apply Hnone; lia.
        -- now exists segments.
Qed.

Lemma line_segments_spec (line : str) :
  segmentation is_digit line (line_segments is_digit line).
Proof.
  destruct (segment_loop_spec (List.length line) line 0%nat line [] 0%nat)
    as (segments & Heq & Hseg);
    [lia | reflexivity | lia | intros; lia |].
  unfold line_segments, finditer. simpl in Heq, Hseg.
  destruct (segment_loop _ _ _ _) as [sg le]. now rewrite Heq.
Qed.

End MarkerFacts.

(** C7. The segments of a line, with each [VerseNumber] put back between
    brackets and each [Text] taken as it is, give the line again; and they are
    the matches of the pattern from left to right, without overlap, with the
    non-empty stretches of text before, between and after them. *)
Theorem segments_round_trip (is_digit : char -> bool) (line : str) :
  reassemble (line_segments is_digit line) = line
  /\ segmentation is_digit line (line_segments is_digit line).
Proof.
  split.
  - apply segmentation_reassemble with is_digit. apply line_segments_spec.
  - apply line_segments_spec.
Qed.

(** ** Element parser *)

Section ParserFacts.

Variable is_digit : char -> bool.

Lemma flush_body_poetry (current_body : list str) :
  flush_body true current_body = List.map (pair poetry) current_body.
Proof. now destruct current_body. Qed.

Lemma parse_loop_poetry (lines : list str) :
  forall elements current_body,
    parse_loop is_digit true lines elements current_body
    = elements ++ List.map (pair poetry) current_body
        ++ List.map (poetry_element is_digit) (filter nonblank lines).
Proof.
  induction lines as [|line rest IH]; intros elements current_body;
    cbn [parse_loop filter].
  - now rewrite flush_body_poetry, app_nil_r.
  - unfold nonblank at 1. destruct (nonempty (strip line)); cbn [negb].
    + destruct (_is_section_heading is_digit line) eqn:Hh; rewrite IH;
        cbn [List.map].
      * replace (poetry_element is_digit line) with (heading, strip line)
          by (unfold poetry_element; now rewrite Hh).
        rewrite flush_body_poetry. cbn [List.map app].
        now rewrite <- !app_assoc.
      * replace (poetry_element is_digit line) with (poetry, line)
          by (unfold poetry_element; now rewrite Hh).
        rewrite map_app. cbn [List.map app]. now rewrite <- !app_assoc.
    + apply IH.
Qed.

Lemma parse_loop_prose (lines : list str) :
  forall elements run,
    Forall (fun line => _is_section_heading is_digit line = false) run ->
    exists parsed,
      parse_loop is_digit false lines elements (List.map strip run)
      = elements ++ parsed
      /\ prose_elements is_digit (run ++ filter nonblank lines) parsed.
Proof.
  induction lines as [|line rest IH]; intros elements run Hrun;
    cbn [parse_loop filter].
  - unfold flush_body. rewrite app_nil_r. destruct run as [|l run].
    + exists []. split; [reflexivity | constructor].
    + exists [(body, join_sp (List.map strip (l :: run)))].
      split; [reflexivity|].
      rewrite <- (app_nil_r (l :: run)) at 1.
      apply prose_run; [discriminate | assumption | exact I | constructor].
  - unfold nonblank at 1. destruct (nonempty (strip line)); cbn [negb].
    + destruct (_is_section_heading is_digit line) eqn:Hh.
      * destruct (IH ((elements ++ flush_body false (List.map strip run))
                        ++ [(heading, strip line)]) [] (Forall_nil _))
          as (parsed & Heq & Hparsed).
        cbn [List.map app] in Heq, Hparsed. rewrite Heq.
        unfold flush_body. destruct run as [|l run].
        -- exists ((heading, strip line) :: parsed). cbn [List.map nonempty app].
           split; [now rewrite app_nil_r, <- app_assoc|].
           now apply prose_heading.
        -- exists ((body, join_sp (List.map strip (l :: run)))
                     :: (heading, strip line) :: parsed).
           split; [cbn [List.map nonempty]; now rewrite <- !app_assoc|].
           apply prose_run; [discriminate | assumption | assumption |].
           now apply prose_heading.
      * destruct (IH elements (run ++ [line])) as (parsed & Heq & Hparsed).
        { apply Forall_app; split; [assumption | now constructor]. }
        rewrite map_app in Heq. cbn [List.map] in Heq.
        exists parsed. split; [exact Heq|].
        now rewrite <- app_assoc in Hparsed.
    + now apply IH.
Qed.

End ParserFacts.

(** C8. Poetry or prose is decided once, from the whole text: a passage is
    poetry exactly when one of its lines starts with a space and is not blank.
    In a poetry passage every non-blank line that is not a heading gives one
    [poetry] element holding the raw line, whether the line is indented or
    not; in a prose passage the runs of lines between headings are stripped
    and joined with single spaces, one [body] element a run. *)
Theorem poetry_decision_is_global (is_digit : char -> bool) (text : str) :
  (_is_poetry text = true
   <-> exists line, In line (split_on NEWLINE text)
                    /\ has_leading_space line = true /\ strip line <> [])
  /\ (if _is_poetry text
      then _parse_passage_elements is_digit text
           = List.map (poetry_element is_digit)
               (filter nonblank (split_on NEWLINE text))
      else prose_elements is_digit (filter nonblank (split_on NEWLINE text))
             (_parse_passage_elements is_digit text)).
Proof.
  split.
  - unfold _is_poetry. rewrite existsb_exists.
    split; intros (line & Hin & H); exists line; (split; [assumption|]).
    + apply andb_prop in H as [H1 H2]. split; [assumption | now apply nonempty_true].
    + destruct H as [H1 H2]. apply nonempty_true in H2. now rewrite H1, H2.
  - unfold _parse_passage_elements. destruct (_is_poetry text).
    + now rewrite parse_loop_poetry.
    + destruct (parse_loop_prose is_digit (split_on NEWLINE text) [] [] (Forall_nil _))
        as (parsed & Heq & Hparsed).
      cbn [List.map app] in Heq, Hparsed. now rewrite Heq.
Qed.

(** *** Non-whitespace content *)

Lemma letters_app (s t : str) : letters (s ++ t) = letters s ++ letters t.
Proof. apply filter_app. Qed.

Lemma letters_lstrip (s : str) : letters (lstrip s) = letters s.
Proof.
  unfold lstrip, letters. induction s as [|c s IH]; [reflexivity|].
  simpl. unfold nonspace at 2. destruct (py_isspace c) eqn:Hc; simpl.
  - exact IH.
  - unfold nonspace at 1. now rewrite Hc.
Qed.

Lemma letters_rev (s : str) : letters (rev s) = rev (letters s).
Proof.
  unfold letters. induction s as [|c s IH]; [reflexivity|].
  simpl. rewrite filter_app, IH. simpl.
  destruct (nonspace c); simpl; [reflexivity | now rewrite app_nil_r].
Qed.

Lemma letters_rstrip (s : str) : letters (rstrip s) = letters s.
Proof.
  unfold rstrip. rewrite letters_rev.
  change (dropwhile py_isspace (rev s)) with (lstrip (rev s)).
  now rewrite letters_lstrip, letters_rev, rev_involutive.
Qed.

Lemma letters_strip (s : str) : letters (strip s) = letters s.
Proof. unfold strip. now rewrite letters_rstrip, letters_lstrip. Qed.

Lemma letters_join_sp (parts : list str) :
  letters (join_sp parts) = flat_map letters parts.
Proof.
  induction parts as [|p parts IH]; [reflexivity|].
  destruct parts as [|q parts].
  - simpl. now rewrite app_nil_r.
  - change (join_sp (p :: q :: parts)) with (p ++ [SPACE] ++ join_sp (q :: parts)).
    rewrite !letters_app, IH. reflexivity.
Qed.

Lemma letters_split_lines (text : str) :
  flat_map letters (split_on NEWLINE text) = letters text.
Proof.
  induction text as [|c text IH]; [reflexivity|].
  cbn [split_on]. destruct (c =? NEWLINE)%N eqn:Hc.
  - apply N.eqb_eq in Hc. subst c. cbn [flat_map]. now rewrite IH.
  - destruct (split_on NEWLINE text) as [|l ls]; cbn [flat_map] in *.
    + rewrite app_nil_r. change (c :: text) with ([c] ++ text).
      now rewrite letters_app, <- IH, app_nil_r.
    + change (c :: l) with ([c] ++ l). change (c :: text) with ([c] ++ text).
      now rewrite !letters_app, <- IH, app_assoc.
Qed.

Lemma letters_blank (line : str) : nonblank line = false -> letters line = [].
Proof.
  unfold nonblank. intros H. rewrite <- letters_strip.
  now destruct (strip line).
Qed.

Lemma dropwhile_head {A} (p : A -> bool) (l : list A) (x : A) (t : list A) :
  dropwhile p l = x :: t -> p x = false.
Proof.
  induction l as [|y l IH]; simpl; [discriminate|].
  destruct (p y) eqn:Hy; [exact IH|]. intros E. inversion E; subst. exact Hy.
Qed.

Lemma letters_nonblank (line : str) : nonblank line = true -> letters line <> [].
Proof.
  unfold nonblank, strip, rstrip. intros H.
  rewrite <- letters_lstrip, <- (rev_involutive (lstrip line)), letters_rev.
  destruct (dropwhile py_isspace (rev (lstrip line))) as [|x t] eqn:E;
    [discriminate|].
  assert (Hx : nonspace x = true)
    by (unfold nonspace; now rewrite (dropwhile_head _ _ _ _ E)).
  clear H. revert E. generalize (rev (lstrip line)) as l.
  induction l as [|y l IH]; simpl; [discriminate|].
  destruct (py_isspace y) eqn:Hy.
  - intros E. apply IH in E. unfold letters in *. simpl.
    unfold nonspace at 1. rewrite Hy. simpl. exact E.
  - intros E. inversion E; subst. unfold letters. simpl. rewrite Hx.
    intros Habs. apply app_eq_nil in Habs as [_ Habs]. discriminate.
Qed.

Lemma contents_app (es fs : list element) :
  contents (es ++ fs) = contents es ++ contents fs.
Proof. unfold contents. now rewrite map_app, concat_app. Qed.

Lemma letters_concat (parts : list str) :
  letters (List.concat parts) = flat_map letters parts.
Proof.
  induction parts as [|p parts IH]; [reflexivity|].
  simpl. now rewrite letters_app, IH.
Qed.

Lemma letters_flush_body (is_poetry_passage : bool) (current_body : list str) :
  letters (contents (flush_body is_poetry_passage current_body))
  = flat_map letters current_body.
Proof.
  unfold flush_body. destruct current_body as [|l current_body]; [reflexivity|].
  cbn [nonempty]. destruct is_poetry_passage.
  - unfold contents. rewrite map_map. cbn [snd]. rewrite map_id.
    apply letters_concat.
  - unfold contents. cbn [List.map snd List.concat]. rewrite app_nil_r.
    apply letters_join_sp.
Qed.

Section ContentFacts.

Variable is_digit : char -> bool.

Lemma parse_loop_letters (is_poetry_passage : bool) (lines : list str) :
  forall elements current_body,
    letters (contents (parse_loop is_digit is_poetry_passage lines
                         elements current_body))
    = letters (contents elements) ++ flat_map letters current_body
        ++ flat_map letters lines.
Proof.
  induction lines as [|line rest IH]; intros elements current_body;
    cbn [parse_loop flat_map].
  - now rewrite contents_app, letters_app, letters_flush_body, app_nil_r.
  - destruct (nonempty (strip line)) eqn:Hb; cbn [negb].
    + destruct (_is_section_heading is_digit line).
      * rewrite IH, !contents_app, !letters_app, letters_flush_body.
        unfold contents at 2. cbn [List.map snd List.concat flat_map].
        now rewrite app_nil_r, letters_strip, <- !app_assoc.
      * destruct is_poetry_passage; rewrite IH, flat_map_app;
          cbn [flat_map]; rewrite ?letters_strip, app_nil_r;
          now rewrite <- !app_assoc.
    + rewrite IH, (letters_blank line Hb). reflexivity.
Qed.

Lemma flush_body_has_letters (is_poetry_passage : bool) (current_body : list str) :
  Forall has_letters current_body ->
  Forall (fun e : element => has_letters (snd e))
         (flush_body is_poetry_passage current_body).
Proof.
  intros H. unfold flush_body.
  destruct current_body as [|l current_body]; [constructor|].
  cbn [nonempty]. destruct is_poetry_passage.
  - apply Forall_map. exact H.
  - constructor; [|constructor]. cbn [snd]. unfold has_letters.
    rewrite letters_join_sp. cbn [flat_map].
    inversion H as [|? ? Hl _]; subst. unfold has_letters in Hl.
    destruct (letters l); [congruence | discriminate].
Qed.

Lemma parse_loop_has_letters (is_poetry_passage : bool) (lines : list str) :
  forall elements current_body,
    Forall (fun e : element => has_letters (snd e)) elements ->
    Forall has_letters current_body ->
    Forall (fun e : element => has_letters (snd e))
           (parse_loop is_digit is_poetry_passage lines elements current_body).
Proof.
  induction lines as [|line rest IH]; intros elements current_body He Hb;
    cbn [parse_loop].
  - apply Forall_app; split; [assumption | now apply flush_body_has_letters].
  - destruct (nonempty (strip line)) eqn:Hn; cbn [negb]; [|now apply IH].
    pose proof (letters_nonblank line Hn) as Hline.
    destruct (_is_section_heading is_digit line).
    + apply IH; [|constructor].
      apply Forall_app; split;
        [apply Forall_app; split;
         [assumption | now apply flush_body_has_letters]|].
      constructor; [|constructor]. cbn [snd]. unfold has_letters.
      now rewrite letters_strip.
    + destruct is_poetry_passage; (apply IH; [assumption|]);
        (apply Forall_app; split; [assumption|]);
        (constructor; [|constructor]); unfold has_letters;
        now rewrite ?letters_strip.
Qed.

End ContentFacts.

Lemma made_of_one (tag : elem_type) (line : str) : made_of (tag, line) [line].
Proof.
  unfold made_of. cbn [fst snd]. split; [discriminate|].
  split; [reflexivity|]. intros _. now exists line.
Qed.

Lemma flush_body_groups (is_poetry_passage : bool) (current_body : list str) :
  exists groups,
    List.concat groups = current_body
    /\ Forall2 made_of (flush_body is_poetry_passage current_body) groups.
Proof.
  unfold flush_body. destruct current_body as [|l current_body].
  - exists []. split; [reflexivity | constructor].
  - cbn [nonempty]. destruct is_poetry_passage.
    + exists (List.map (fun line => [line]) (l :: current_body)). split.
      * generalize (l :: current_body). intros lines.
        induction lines as [|x lines IH]; [reflexivity|].
        cbn [List.map List.concat app]. now rewrite IH.
      * generalize (l :: current_body). intros lines.
        induction lines as [|x lines IH]; [constructor|].
        cbn [List.map]. constructor; [apply made_of_one | exact IH].
    + exists [l :: current_body]. split.
      * cbn [List.concat]. apply app_nil_r.
      * constructor; [|constructor]. unfold made_of. cbn [fst snd].
        split; [discriminate|]. split; [reflexivity|]. congruence.
Qed.

Lemma parse_loop_groups (is_digit : char -> bool) (is_poetry_passage : bool)
      (lines : list str) :
  forall elements current_body egroups,
    Forall2 made_of elements egroups ->
    exists groups,
      List.concat groups
      = List.concat egroups ++ current_body
          ++ List.map (kept_line is_digit is_poetry_passage)
               (filter nonblank lines)
      /\ Forall2 made_of
           (parse_loop is_digit is_poetry_passage lines elements current_body)
           groups.
Proof.
  induction lines as [|line rest IH]; intros elements current_body egroups He;
    cbn [parse_loop filter List.map].
  - destruct (flush_body_groups is_poetry_passage current_body)
      as (fgroups & Hcat & Hf).
    exists (egroups ++ fgroups). split.
    + now rewrite concat_app, Hcat, app_nil_r.
    + now apply Forall2_app.
  - unfold nonblank at 1. destruct (nonempty (strip line)); cbn [negb];
      [|now apply IH].
    cbn [List.map]. unfold kept_line at 1.
    destruct (_is_section_heading is_digit line) eqn:Hh.
    + rewrite andb_false_r.
      destruct (flush_body_groups is_poetry_passage current_body)
        as (fgroups & Hcat & Hf).
      destruct (IH ((elements ++ flush_body is_poetry_passage current_body)
                      ++ [(heading, strip line)])
                   [] ((egroups ++ fgroups) ++ [[strip line]]))
        as (groups & Hg & Hall).
      { apply Forall2_app; [now apply Forall2_app|].
        constructor; [apply made_of_one | constructor]. }
      exists groups. split; [|exact Hall].
      rewrite Hg, !concat_app, Hcat. cbn [List.concat app].
      now rewrite <- !app_assoc.
    + rewrite andb_true_r. destruct is_poetry_passage.
      * destruct (IH elements (current_body ++ [line]) egroups He)
          as (groups & Hg & Hall).
        exists groups. split; [|exact Hall].
        rewrite Hg. now rewrite <- !app_assoc.
      * destruct (IH elements (current_body ++ [strip line]) egroups He)
          as (groups & Hg & Hall).
        exists groups. split; [|exact Hall].
        rewrite Hg. now rewrite <- !app_assoc.
Qed.

(** C9. The parser drops no content and keeps the order.  The contents of the
    elements, one after the other, hold exactly the non-whitespace characters
    of the passage, in their order, and every element holds such a character.
    Whitespace is changed in two ways only: blank lines are left out, and a
    line that is not a poetry line loses its leading and trailing whitespace.
    The elements are made, in order, of the lines that are not blank so kept
    (poetry lines as they are, the others stripped): each content is one kept
    line, or for a body the kept lines of its run joined by single spaces. *)
Theorem parser_changes_whitespace_only (is_digit : char -> bool) (text : str) :
  letters (contents (_parse_passage_elements is_digit text)) = letters text
  /\ Forall (fun e : element => letters (snd e) <> [])
            (_parse_passage_elements is_digit text)
  /\ exists groups,
      List.concat groups = kept_lines is_digit text
      /\ Forall2 made_of (_parse_passage_elements is_digit text) groups.
Proof.
  unfold _parse_passage_elements. split; [|split].
  - rewrite parse_loop_letters. cbn [contents List.map List.concat flat_map app].
    apply letters_split_lines.
  - apply (parse_loop_has_letters is_digit); constructor.
  - destruct (parse_loop_groups is_digit (_is_poetry text)
                (split_on NEWLINE text) [] [] [] (Forall2_nil _))
      as (groups & Hg & Hall).
    exists groups. split; [exact Hg | exact Hall].
Qed.

(** ** The examples of the specification and of the test suite *)

Example wrap_text_single_line :
  _wrap_text ten_per_char 1000 (lit "Short text") = [lit "Short text"].
Proof. vm_compute. reflexivity. Qed.

Example wrap_text_multiple_lines :
  _wrap_text ten_per_char 200
    (lit "This is a very long line of text that should be wrapped")
  = [lit "This is a very long"; lit "line of text that"; lit "should be wrapped"].
Proof. vm_compute. reflexivity. Qed.

Example is_section_heading_true :
  _is_section_heading ascii_digit (lit "The Sermon on the Mount") = true.
Proof. vm_compute. reflexivity. Qed.

Example is_section_heading_false_with_verse_number :
  _is_section_heading ascii_digit (lit "[1] In the beginning") = false.
Proof. vm_compute. reflexivity. Qed.

Example is_section_heading_false_with_indentation :
  _is_section_heading ascii_digit (lit "  He makes me lie down") = false.
Proof. vm_compute. reflexivity. Qed.

Example is_section_heading_false_with_empty :
  _is_section_heading ascii_digit [] = false.
Proof. reflexivity. Qed.

Example is_poetry_false : _is_poetry (lit "[1] For God so loved the world") = false.
Proof. vm_compute. reflexivity. Qed.

(** A poetry passage: the first line is not indented and is a poetry line all
    the same. *)
Example parse_poetry_passage :
  let text := lit "[1] The Lord is my shepherd; I shall not want."
                ++ [NEWLINE] ++ lit "  [2] He makes me lie down in green pastures." in
  _is_poetry text = true
  /\ _parse_passage_elements ascii_digit text
     = [(poetry, lit "[1] The Lord is my shepherd; I shall not want.");
        (poetry, lit "  [2] He makes me lie down in green pastures.")].
Proof. vm_compute. split; reflexivity. Qed.

Example parse_prose_passage :
  _parse_passage_elements ascii_digit
    (lit "The Sermon on the Mount" ++ [NEWLINE]
       ++ lit "[1] Seeing the crowds, he went up on the mountain.")
  = [(heading, lit "The Sermon on the Mount");
     (body, lit "[1] Seeing the crowds, he went up on the mountain.")].
Proof. vm_compute. reflexivity. Qed.

Example segments_of_a_verse :
  line_segments ascii_digit (lit "[16] For God so loved the world")
  = [VerseNumber (lit "16"); Text (lit " For God so loved the world")].
Proof. vm_compute. reflexivity. Qed.

(** Brackets that do not hold digits only are plain text. *)
Example segments_of_other_brackets :
  line_segments ascii_digit (lit "a [x] [12a] [3][44]b")
  = [Text (lit "a [x] [12a] "); VerseNumber (lit "3"); VerseNumber (lit "44");
     Text (lit "b")].
Proof. vm_compute. reflexivity. Qed.

(** The default font size of 64 points gives eight lines a slide. *)
Example default_budget :
  int_trunc ((SLIDE_HEIGHT - MARGIN_TOP - MARGIN_BOTTOM) / (64 * (3 # 2)))%Q = 8%Z.
Proof. vm_compute. reflexivity. Qed.

(** With a budget the same passage is paginated. *)
Example body_slides_of_a_verse :
  _create_body_slides ascii_digit (per_char 40) 64 1 (lit "[1] In the beginning")
  = Finished [[Body (lit "[1] In the beginning")]].
Proof. vm_compute. reflexivity. Qed.

(** * Properties of the rest of the program *)

(** ** Stripping *)



Lemma dropwhile_snoc {A} (p : A -> bool) (l : list A) (x : A) :
  p x = false -> dropwhile p (l ++ [x]) = dropwhile p l ++ [x].
Proof.
  intros Hx. induction l as [|y l IH]; simpl.
  - now rewrite Hx.
  - destruct (p y); [exact IH | reflexivity].
Qed.

Lemma rstrip_cons (c : char) (s : str) :
  py_isspace c = false -> rstrip (c :: s) = c :: rstrip s.
Proof.
  intros Hc. unfold rstrip. simpl.
  rewrite dropwhile_snoc by assumption. now rewrite rev_app_distr.
Qed.

Lemma lstrip_head (s : str) :
  match lstrip s with [] => True | c :: _ => py_isspace c = false end.
Proof.
  unfold lstrip. destruct (dropwhile py_isspace s) as [|c t] eqn:E; [exact I|].
  exact (dropwhile_head _ _ _ _ E).
Qed.

Lemma lstrip_strip (s : str) : lstrip (strip s) = strip s.
Proof.
  unfold strip. pose proof (lstrip_head s) as H.
  destruct (lstrip s) as [|c t]; [reflexivity|].
  rewrite rstrip_cons by assumption. unfold lstrip. simpl. now rewrite H.
Qed.

Lemma dropwhile_idem {A} (p : A -> bool) (l : list A) :
  dropwhile p (dropwhile p l) = dropwhile p l.
Proof.
  induction l as [|y l IH]; simpl; [reflexivity|].
  destruct (p y) eqn:Hy; [exact IH | simpl; now rewrite Hy].
Qed.

Lemma rstrip_idem (s : str) : rstrip (rstrip s) = rstrip s.
Proof. unfold rstrip. now rewrite rev_involutive, dropwhile_idem. Qed.

Lemma strip_idem (s : str) : strip (strip s) = strip s.
Proof.
  unfold strip at 1. rewrite lstrip_strip. unfold strip. apply rstrip_idem.
Qed.

(** ** File names *)

Lemma replace_char_gone (old : char) (new s : str) :
  ~ In old new -> ~ In old (replace_char old new s).
Proof.
  intros Hnew. unfold replace_char. rewrite in_flat_map.
  intros (c & _ & Hin). destruct (c =? old)%N eqn:Hc.
  - contradiction.
  - destruct Hin as [->|[]]. now rewrite N.eqb_refl in Hc.
Qed.

Lemma replace_char_keeps_out (old c : char) (new s : str) :
  ~ In c new -> ~ In c s -> ~ In c (replace_char old new s).
Proof.
  intros Hnew Hs. unfold replace_char. rewrite in_flat_map.
  intros (d & Hd & Hin). destruct (d =? old)%N.
  - contradiction.
  - destruct Hin as [->|[]]. contradiction.
Qed.

Lemma replace_char_absent (old : char) (new s : str) :
  ~ In old s -> replace_char old new s = s.
Proof.
  unfold replace_char. induction s as [|c s IH]; intros H; [reflexivity|].
  simpl. destruct (c =? old)%N eqn:Hc.
  - apply N.eqb_eq in Hc. subst. exfalso. apply H. now left.
  - simpl. f_equal. apply IH. intros Hin. apply H. now right.
Qed.

Lemma not_in_one (c d : char) : c <> d -> ~ In c [d].
Proof. intros H [E|[]]. now apply H. Qed.

Lemma sanitize_filename_free (text : str) (c : char) :
  In c [SPACE; COLON; COMMA; SEMICOLON] -> ~ In c (sanitize_filename text).
Proof.
  unfold sanitize_filename. intros [<-|[<-|[<-|[<-|[]]]]].
  - apply replace_char_keeps_out; [tauto|].
    apply replace_char_keeps_out; [tauto|].
    apply replace_char_keeps_out; [now apply not_in_one|].
    apply replace_char_gone. now apply not_in_one.
  - apply replace_char_keeps_out; [tauto|].
    apply replace_char_keeps_out; [tauto|].
    apply replace_char_gone. now apply not_in_one.
  - apply replace_char_keeps_out; [tauto|].
    apply replace_char_gone. tauto.
  - apply replace_char_gone. tauto.
Qed.

(** X1. A sanitized name holds no space, colon, comma or semicolon. *)
Theorem sanitize_filename_clean (text : str) :
  Forall (fun c => ~ In c (sanitize_filename text))
         [SPACE; COLON; COMMA; SEMICOLON].
Proof.
  apply Forall_forall. intros c Hc. now apply sanitize_filename_free.
Qed.

(** X2. Sanitizing a sanitized name changes nothing. *)
Theorem sanitize_filename_idempotent (text : str) :
  sanitize_filename (sanitize_filename text) = sanitize_filename text.
Proof.
  pose proof (sanitize_filename_free text) as H.
  unfold sanitize_filename at 1.
  rewrite (replace_char_absent SPACE) by (apply H; simpl; tauto).
  rewrite (replace_char_absent COLON) by (apply H; simpl; tauto).
  rewrite (replace_char_absent COMMA) by (apply H; simpl; tauto).
  apply replace_char_absent. apply H. simpl. tauto.
Qed.

Lemma startswith_app (p s : str) : startswith (p ++ s) p = true.
Proof.
  induction p as [|c p IH]; simpl; [now destruct s|].
  now rewrite N.eqb_refl, IH.
Qed.

Lemma endswith_app (s suffix : str) : endswith (s ++ suffix) suffix = true.
Proof. unfold endswith. rewrite rev_app_distr. apply startswith_app. Qed.

(** X3. The file name of [generate_pdf] always ends in [.pdf], whether it
    comes from the caller or from the clock; and a name given with that ending
    is kept as it is. *)
Theorem generate_pdf_filename_is_pdf (output_filename : option str) (timestamp : str) :
  endswith (generate_pdf_filename output_filename timestamp) (lit ".pdf") = true
  /\ forall stem,
      generate_pdf_filename (Some (stem ++ lit ".pdf")) timestamp = stem ++ lit ".pdf".
Proof.
  split.
  - unfold generate_pdf_filename.
    destruct output_filename as [name|].
    + destruct (nonempty name).
      * destruct (endswith name (lit ".pdf")) eqn:E; [exact E | apply endswith_app].
      * rewrite app_assoc. apply endswith_app.
    + rewrite app_assoc. apply endswith_app.
  - intros stem. unfold generate_pdf_filename.
    rewrite endswith_app. now destruct stem.
Qed.

(** ** References *)


Lemma split_on_length (sep : char) (s : str) :
  List.length (split_on sep s) = S (count_occ N.eq_dec s sep).
Proof.
  induction s as [|c s IH]; simpl; [reflexivity|].
  destruct (N.eqb_spec c sep) as [->|Hne].
  - simpl. rewrite IH. now destruct (N.eq_dec sep sep).
  - destruct (N.eq_dec c sep); [contradiction|].
    destruct (split_on sep s); simpl in *; lia.
Qed.



Lemma argument_references_nonempty (refs : list str) :
  refs <> [] -> argument_references refs <> [].
Proof.
  destruct refs as [|ref refs]; [congruence|]. intros _.
  unfold argument_references. simpl.
  destruct (existsb (N.eqb COMMA) ref).
  - pose proof (split_on_length COMMA ref) as H.
    destruct (split_on COMMA ref); [discriminate | discriminate].
  - discriminate.
Qed.

(** X5. When the arguments passed the check of [parse_args] and
    [get_references] returns, it returns at least one reference. *)
Theorem get_references_nonempty
        (open_file : str -> file_read) (args : cli_args) (refs : list str) :
  has_reference_source args = true ->
  get_references open_file args = Returns refs ->
  refs <> [].
Proof.
  unfold has_reference_source, get_references. intros Hsrc Hget.
  pose proof (argument_references_nonempty (args_references args)) as Hargs.
  destruct (args_file args) as [file|].
  - destruct (nonempty file).
    + destruct (open_file file) as [| |lines]; try discriminate.
      destruct (List.map strip _) as [|r file_refs] eqn:E; [discriminate|].
      simpl in Hget. inversion Hget; subst.
      intros Habs. apply app_eq_nil in Habs as [_ Habs]. discriminate.
    + rewrite orb_false_r in Hsrc. apply nonempty_true in Hsrc.
      inversion Hget; subst. now apply Hargs.
  - rewrite orb_false_r in Hsrc. apply nonempty_true in Hsrc.
    inversion Hget; subst. now apply Hargs.
Qed.

Lemma get_references_nonempty_witness :
  [lit "John 3:16"; lit "Romans 8:28"] <> [].
Proof.
  apply (get_references_nonempty (fun _ => FileNotFoundError)
           {| args_references := [lit "John 3:16, Romans 8:28"];
              args_file := None |}
           [lit "John 3:16"; lit "Romans 8:28"]).
  - reflexivity.
  - vm_compute. reflexivity.
Defined.



(** ** Trimmed strings *)

Lemma trimmed_iff (s : str) : trimmed s <-> starts_clean s /\ starts_clean (rev s).
Proof.
  unfold trimmed. split.
  - intros [Hne Hs].
    assert (Hl : lstrip s = s) by (rewrite <- Hs at 2; rewrite <- lstrip_strip; now rewrite Hs).
    assert (Hr : rstrip s = s) by (unfold strip in Hs; now rewrite Hl in Hs).
    split.
    + pose proof (lstrip_head s) as H. rewrite Hl in H.
      destruct s; [congruence | exact H].
    + unfold rstrip in Hr. apply (f_equal (@rev _)) in Hr.
      rewrite rev_involutive in Hr.
      pose proof (lstrip_head (rev s)) as H. unfold lstrip in H. rewrite Hr in H.
      destruct (rev s) eqn:E; [|exact H].
      apply (f_equal (@rev _)) in E. rewrite rev_involutive in E. simpl in E.
      congruence.
  - intros [Hs Hr]. destruct s as [|c t]; [contradiction|].
    split; [discriminate|]. unfold strip, lstrip. simpl in Hs |- *. rewrite Hs.
    unfold rstrip. destruct (rev (c :: t)) as [|d u] eqn:E; [contradiction|].
    simpl in Hr |- *. rewrite Hr. rewrite <- E. apply rev_involutive.
Qed.

Lemma word_trimmed (w : str) : is_word w -> trimmed w.
Proof.
  intros [Hne Hw]. apply trimmed_iff. split.
  - destruct w as [|c t]; [congruence|]. simpl in Hw |- *.
    apply andb_prop in Hw as [Hc _]. now apply negb_true_iff in Hc.
  - assert (Hr : forallb nonspace (rev w) = true).
    { rewrite forallb_forall in *. intros x Hx. apply Hw. now apply in_rev. }
    destruct (rev w) as [|c t] eqn:E.
    + apply (f_equal (@rev _)) in E. rewrite rev_involutive in E. simpl in E.
      congruence.
    + simpl in Hr |- *. apply andb_prop in Hr as [Hc _].
      now apply negb_true_iff in Hc.
Qed.

Lemma strip_trimmed (s : str) : strip s <> [] -> trimmed (strip s).
Proof. intros H. split; [assumption | apply strip_idem]. Qed.

Lemma join_sp_cons2 (p q : str) (ps : list str) :
  join_sp (p :: q :: ps) = p ++ [SPACE] ++ join_sp (q :: ps).
Proof. reflexivity. Qed.

Lemma join_sp_snoc (l : list str) (a : str) :
  l <> [] -> join_sp (l ++ [a]) = join_sp l ++ [SPACE] ++ a.
Proof.
  induction l as [|p l IH]; [congruence|]. intros _.
  destruct l as [|q l].
  - reflexivity.
  - change ((p :: q :: l) ++ [a]) with (p :: q :: (l ++ [a])).
    rewrite !join_sp_cons2.
    change (q :: l ++ [a]) with ((q :: l) ++ [a]).
    rewrite IH by discriminate. now rewrite <- !app_assoc.
Qed.

Lemma rev_join_sp (parts : list str) :
  rev (join_sp parts) = join_sp (List.map (@rev char) (rev parts)).
Proof.
  induction parts as [|p parts IH]; [reflexivity|].
  destruct parts as [|q parts].
  - reflexivity.
  - rewrite join_sp_cons2, !rev_app_distr, IH.
    change (rev (p :: q :: parts)) with (rev (q :: parts) ++ [p]).
    rewrite map_app. cbn [List.map rev app].
    rewrite join_sp_snoc; [now rewrite <- app_assoc|].
    intros Habs. apply map_eq_nil in Habs. simpl in Habs.
    apply app_eq_nil in Habs as [_ Habs]. discriminate.
Qed.

Lemma join_sp_starts_clean (p : str) (ps : list str) :
  starts_clean p -> starts_clean (join_sp (p :: ps)).
Proof.
  intros H. destruct p as [|c t]; [contradiction|].
  destruct ps; exact H.
Qed.

Lemma join_sp_trimmed (parts : list str) :
  parts <> [] -> Forall trimmed parts -> trimmed (join_sp parts).
Proof.
  intros Hne Hall. apply trimmed_iff. split.
  - destruct parts as [|p ps]; [congruence|].
    inversion Hall as [|? ? Hp _]; subst.
    apply join_sp_starts_clean. now apply trimmed_iff in Hp.
  - rewrite rev_join_sp. destruct (rev parts) as [|p ps] eqn:E.
    + apply (f_equal (@rev _)) in E. rewrite rev_involutive in E. simpl in E.
      congruence.
    + cbn [List.map]. apply join_sp_starts_clean.
      assert (Hin : In p parts) by (apply in_rev; rewrite E; now left).
      rewrite Forall_forall in Hall. apply Hall in Hin.
      now apply trimmed_iff in Hin.
Qed.

(** ** More on the line wrapper *)

Lemma wrap_loop_trimmed (measure : str -> Q) (max_width : Q) (words : list str) :
  forall lines cur,
    Forall is_word words -> Forall is_word cur -> Forall trimmed lines ->
    Forall trimmed (wrap_loop measure max_width words lines cur).
Proof.
  assert (Hjoin : forall c cur, Forall is_word (c :: cur) ->
                                trimmed (join_sp (c :: cur))).
  { intros c cur H. apply join_sp_trimmed; [discriminate|].
    eapply Forall_impl; [|exact H]. apply word_trimmed. }
  induction words as [|word rest IH]; intros lines cur Hw Hc Hl; simpl.
  - destruct cur as [|c cur]; simpl; [assumption|].
    apply Forall_app; split; [assumption|].
    constructor; [now apply Hjoin | constructor].
  - inversion Hw as [|? ? Hword Hrest]; subst.
    destruct (Qle_bool _ _).
    + apply IH; [assumption | | assumption].
      apply Forall_app; split; [assumption | now constructor].
    + apply IH; [assumption | now constructor |].
      destruct cur as [|c cur]; simpl; [assumption|].
      apply Forall_app; split; [assumption|].
      constructor; [now apply Hjoin | constructor].
Qed.

(** X7. No line of [_wrap_text] is empty, and none starts or ends with
    whitespace, whatever the spacing of the text. *)
Theorem wrap_lines_are_trimmed (measure : str -> Q) (max_width : Q) (text : str) :
  Forall (fun line => line <> [] /\ strip line = line)
         (_wrap_text measure max_width text).
Proof.
  apply (wrap_loop_trimmed measure max_width (split_ws text) [] []);
    [apply split_ws_words | constructor | constructor].
Qed.

(** ** Words *)

Lemma split_ws_from_space_app (a b : str) (c : char) :
  forall cur,
    py_isspace c = true ->
    split_ws_from (a ++ c :: b) cur = split_ws_from a cur ++ split_ws b.
Proof.
  induction a as [|x a IH]; intros cur Hc; simpl.
  - rewrite Hc. now destruct (nonempty cur).
  - destruct (py_isspace x).
    + destruct (nonempty cur); simpl; now rewrite IH.
    + now apply IH.
Qed.

Lemma split_ws_space_app (a b : str) (c : char) :
  py_isspace c = true -> split_ws (a ++ c :: b) = split_ws a ++ split_ws b.
Proof. intros Hc. now apply split_ws_from_space_app. Qed.

Lemma split_ws_dropwhile (p : char -> bool) (s : str) :
  (forall c, p c = true -> py_isspace c = true) ->
  split_ws (dropwhile p s) = split_ws s.
Proof.
  intros Hp. induction s as [|c s IH]; [reflexivity|].
  simpl. destruct (p c) eqn:Hc; [|reflexivity].
  rewrite IH. unfold split_ws. simpl. now rewrite (Hp c Hc).
Qed.

Lemma split_ws_lstrip (s : str) : split_ws (lstrip s) = split_ws s.
Proof. apply split_ws_dropwhile. auto. Qed.

Lemma split_ws_lstrip_spaces (s : str) : split_ws (lstrip_spaces s) = split_ws s.
Proof.
  apply split_ws_dropwhile. intros c Hc. apply N.eqb_eq in Hc. now subst c.
Qed.

Lemma split_ws_spaces_after (s tail : str) :
  forallb py_isspace tail = true -> split_ws (s ++ tail) = split_ws s.
Proof.
  revert s. induction tail as [|c tail IH]; intros s H.
  - now rewrite app_nil_r.
  - simpl in H. apply andb_prop in H as [Hc Ht].
    rewrite split_ws_space_app by assumption.
    pose proof (IH [] Ht) as E. cbn [app] in E. rewrite E. apply app_nil_r.
Qed.

Lemma dropwhile_split {A} (p : A -> bool) (l : list A) :
  exists pre, forallb p pre = true /\ l = pre ++ dropwhile p l.
Proof.
  induction l as [|x l (pre & Hpre & Hl)]; simpl.
  - now exists [].
  - destruct (p x) eqn:Hx.
    + exists (x :: pre). simpl. rewrite Hx, Hpre. split; [reflexivity|].
      now rewrite <- Hl.
    + now exists [].
Qed.

Lemma split_ws_rstrip (s : str) : split_ws (rstrip s) = split_ws s.
Proof.
  unfold rstrip. destruct (dropwhile_split py_isspace (rev s)) as (pre & Hpre & Hs).
  apply (f_equal (@rev _)) in Hs. rewrite rev_involutive, rev_app_distr in Hs.
  rewrite Hs at 2. symmetry. apply split_ws_spaces_after.
  rewrite forallb_forall in *. intros x Hx. apply Hpre. now apply in_rev.
Qed.

Lemma split_ws_strip (s : str) : split_ws (strip s) = split_ws s.
Proof. unfold strip. now rewrite split_ws_rstrip, split_ws_lstrip. Qed.

Lemma split_ws_join_sep (c : char) (parts : list str) :
  py_isspace c = true ->
  split_ws (join [c] parts) = flat_map split_ws parts.
Proof.
  intros Hc. induction parts as [|p parts IH]; [reflexivity|].
  destruct parts as [|q parts].
  - simpl. now rewrite app_nil_r.
  - change (join [c] (p :: q :: parts)) with (p ++ c :: join [c] (q :: parts)).
    rewrite split_ws_space_app by assumption. now rewrite IH.
Qed.

Lemma join_split_on (sep : char) (s : str) : join [sep] (split_on sep s) = s.
Proof.
  induction s as [|c s IH]; [reflexivity|].
  simpl. pose proof (split_on_length sep s) as Hlen.
  destruct (N.eqb_spec c sep) as [->|Hne].
  - destruct (split_on sep s) as [|l ls]; [discriminate|].
    change (join [sep] ([] :: l :: ls)) with (sep :: join [sep] (l :: ls)).
    now rewrite IH.
  - destruct (split_on sep s) as [|l ls]; [discriminate|].
    rewrite <- IH. now destruct ls.
Qed.

Lemma split_ws_lines (text : str) :
  flat_map split_ws (split_on NEWLINE text) = split_ws text.
Proof.
  rewrite <- (split_ws_join_sep NEWLINE) by reflexivity.
  now rewrite join_split_on.
Qed.

Lemma split_ws_from_nil (s : str) :
  forall cur, split_ws_from s cur = [] -> cur = [] /\ letters s = [].
Proof.
  induction s as [|c s IH]; intros cur H; simpl in H.
  - destruct cur; [now split | discriminate].
  - unfold letters. simpl. unfold nonspace at 1.
    destruct (py_isspace c); simpl.
    + destruct cur; [|discriminate]. split; [reflexivity|]. now apply (IH []).
    + apply IH in H as [H _]. now destruct cur.
Qed.

Lemma letters_words (s : str) : letters s <> [] -> split_ws s <> [].
Proof. intros H Hw. apply split_ws_from_nil in Hw as [_ Hw]. contradiction. Qed.

(** ** More on the element parser *)

Lemma element_words_app (es fs : list element) :
  element_words (es ++ fs) = element_words es ++ element_words fs.
Proof. apply flat_map_app. Qed.

Lemma element_words_flush (is_poetry_passage : bool) (current_body : list str) :
  element_words (flush_body is_poetry_passage current_body)
  = flat_map split_ws current_body.
Proof.
  unfold flush_body, element_words.
  destruct current_body as [|l current_body]; [reflexivity|].
  cbn [nonempty]. destruct is_poetry_passage.
  - rewrite flat_map_concat_map, map_map. cbn [snd].
    now rewrite <- flat_map_concat_map.
  - cbn [flat_map snd]. rewrite app_nil_r.
    apply (split_ws_join_sep SPACE). reflexivity.
Qed.

Lemma split_ws_blank (line : str) : nonempty (strip line) = false -> split_ws line = [].
Proof.
  intros H. rewrite <- split_ws_strip. now destruct (strip line).
Qed.

Lemma parse_loop_words (is_digit : char -> bool) (is_poetry_passage : bool)
      (lines : list str) :
  forall elements current_body,
    element_words (parse_loop is_digit is_poetry_passage lines
                     elements current_body)
    = element_words elements ++ flat_map split_ws current_body
        ++ flat_map split_ws lines.
Proof.
  induction lines as [|line rest IH]; intros elements current_body;
    cbn [parse_loop flat_map].
  - now rewrite element_words_app, element_words_flush, app_nil_r.
  - destruct (nonempty (strip line)) eqn:Hb; cbn [negb].
    + destruct (_is_section_heading is_digit line).
      * rewrite IH, !element_words_app, element_words_flush.
        unfold element_words at 2. cbn [flat_map snd].
        now rewrite app_nil_r, split_ws_strip, <- !app_assoc.
      * destruct is_poetry_passage; rewrite IH, flat_map_app;
          cbn [flat_map]; rewrite ?split_ws_strip, app_nil_r;
          now rewrite <- !app_assoc.
    + rewrite IH, (split_ws_blank line Hb). reflexivity.
Qed.

Lemma parse_words (is_digit : char -> bool) (text : str) :
  element_words (_parse_passage_elements is_digit text) = split_ws text.
Proof.
  unfold _parse_passage_elements. rewrite parse_loop_words.
  cbn [element_words flat_map app]. apply split_ws_lines.
Qed.

(** ** More on the wrapped lines *)

Lemma item_words_app (a b : list line_item) :
  item_words (a ++ b) = item_words a ++ item_words b.
Proof. apply flat_map_app. Qed.

Lemma format_element_words (measure : str -> Q) (body_font_size : Q) (e : element) :
  item_words (format_element measure body_font_size e) = split_ws (snd e).
Proof.
  destruct e as [[| |] content]; cbn [format_element snd].
  - unfold item_words. simpl. apply app_nil_r.
  - unfold item_words. rewrite flat_map_concat_map, map_map. cbn [item_text].
    unfold _wrap_text.
    rewrite (wrap_loop_words measure _ (split_ws content) [] []
               (split_ws_words content) (Forall_nil _)).
    reflexivity.
  - rewrite poetry_items_indent.
    unfold item_words. rewrite flat_map_concat_map, map_map. cbn [item_text].
    unfold _wrap_text.
    rewrite (wrap_loop_words measure _ (split_ws (lstrip_spaces content)) [] []
               (split_ws_words _) (Forall_nil _)).
    cbn [List.map List.concat app]. apply split_ws_lstrip_spaces.
Qed.

Lemma format_lines_words (measure : str -> Q) (body_font_size : Q)
      (elements : list element) :
  item_words (format_lines measure body_font_size elements)
  = element_words elements.
Proof.
  unfold format_lines, element_words.
  induction elements as [|e elements IH]; [reflexivity|].
  cbn [flat_map]. rewrite item_words_app, format_element_words. now rewrite IH.
Qed.

(** X8. The words of the formatted lines of a passage, read in order, are
    exactly the whitespace-separated words of its text: parsing and wrapping
    together lose no word, add none and keep the order. *)
Theorem formatted_lines_keep_the_words
        (is_digit : char -> bool) (measure : str -> Q) (body_font_size : Q)
        (text : str) :
  item_words (format_lines measure body_font_size
                (_parse_passage_elements is_digit text))
  = split_ws text.
Proof. rewrite format_lines_words. apply parse_words. Qed.

(** X9. A heading is never wrapped, however wide: the headings among the
    formatted lines are the heading elements, one line each, in order. *)
Theorem headings_are_never_wrapped
        (measure : str -> Q) (body_font_size : Q) (elements : list element) :
  heading_items (format_lines measure body_font_size elements)
  = heading_elements elements.
Proof.
  unfold format_lines, heading_items, heading_elements.
  induction elements as [|[[| |] content] elements IH]; [reflexivity| | |];
    cbn [flat_map fst snd]; rewrite flat_map_app, IH; cbn [format_element].
  - reflexivity.
  - replace (flat_map _ (List.map Body _)) with (@nil str); [reflexivity|].
    generalize (_wrap_text measure available_width content).
    induction l; [reflexivity | assumption].
  - rewrite poetry_items_indent.
    replace (flat_map _ (List.map (Poetry _) _)) with (@nil str); [reflexivity|].
    generalize (_wrap_text measure
                  (available_width
                   - inject_Z (Z.of_nat (List.length content
                                         - List.length (lstrip_spaces content)))
                     * (body_font_size * (3 # 10)))%Q
                  (lstrip_spaces content)).
    induction l; [reflexivity | assumption].
Qed.

(** ** More on the paginator *)

(** X10. With a budget of one line or more the pagination ends within
    [len(formatted_lines)] iterations of the outer loop, and the slides, one
    after the other, are the formatted lines: none is lost, repeated or moved. *)
Theorem pagination_keeps_every_line
        (max_lines : Z) (fuel : nat) (lines : list line_item) :
  (1 <= max_lines)%Z ->
  (List.length lines <= fuel)%nat ->
  exists slides,
    paginate_loop max_lines fuel lines = (slides, true)
    /\ List.concat slides = lines.
Proof. intros Hmax Hfuel. now apply paginate_loop_ends. Qed.

Lemma pagination_keeps_every_line_witness :
  exists slides,
    paginate_loop 2 3 [Body (lit "a"); Body (lit "b"); Body (lit "c")]
    = (slides, true)
    /\ List.concat slides = [Body (lit "a"); Body (lit "b"); Body (lit "c")].
Proof.
  apply (pagination_keeps_every_line 2 3
           [Body (lit "a"); Body (lit "b"); Body (lit "c")]); [lia | simpl; lia].
Defined.






Lemma blank_text_no_elements (is_digit : char -> bool) (text : str) :
  letters text = [] -> _parse_passage_elements is_digit text = [].
Proof.
  intros Hblank. unfold _parse_passage_elements.
  pose proof (parse_loop_letters is_digit (_is_poetry text)
                (split_on NEWLINE text) [] []) as Hl.
  pose proof (parse_loop_has_letters is_digit (_is_poetry text)
                (split_on NEWLINE text) [] [] (Forall_nil _) (Forall_nil _)) as Hh.
  cbn [contents List.map List.concat flat_map app] in Hl.
  rewrite letters_split_lines, Hblank in Hl.
  destruct (parse_loop _ _ _ _ _) as [|e es]; [reflexivity|].
  inversion Hh as [|? ? He _]; subst. exfalso. apply He.
  unfold contents in Hl. cbn [List.map List.concat] in Hl.
  rewrite letters_app in Hl. now apply app_eq_nil in Hl as [Hl _].
Qed.

(** X12. A passage text without a non-whitespace character gives no body
    slide and no error, at every font size, zero included: the loop is never
    entered. *)
Theorem blank_text_gives_no_slide
        (is_digit : char -> bool) (measure : str -> Q) (body_font_size : Q)
        (fuel : nat) (text : str) :
  letters text = [] ->
  _create_body_slides is_digit measure body_font_size fuel text = Finished [].
Proof.
  intros Hblank. unfold _create_body_slides.
  now rewrite blank_text_no_elements.
Qed.

Lemma blank_text_gives_no_slide_witness :
  _create_body_slides ascii_digit (per_char 40) 0 0 ([NEWLINE] ++ lit "  " ++ [NEWLINE])
  = Finished [].
Proof.
  apply (blank_text_gives_no_slide ascii_digit (per_char 40) 0 0
           ([NEWLINE] ++ lit "  " ++ [NEWLINE])).
  reflexivity.
Defined.

(** X13. At a font size of zero, every passage text that holds a
    non-whitespace character raises [ZeroDivisionError] in the pagination. *)
Theorem zero_font_size_raises
        (is_digit : char -> bool) (measure : str -> Q) (body_font_size : Q)
        (fuel : nat) (text : str) :
  (body_font_size == 0)%Q ->
  letters text <> [] ->
  _create_body_slides is_digit measure body_font_size fuel text
  = ZeroDivisionError.
Proof.
  intros Hzero Htext. unfold _create_body_slides, paginate.
  pose proof (format_lines_words measure body_font_size
                (_parse_passage_elements is_digit text)) as Hwords.
  rewrite parse_words in Hwords.
  destruct (format_lines measure body_font_size
              (_parse_passage_elements is_digit text)) as [|it lines].
  - exfalso. apply (letters_words text Htext). now rewrite <- Hwords.
  - assert (E : Qeq_bool (body_font_size * (3 # 2)) 0 = true)
      by (apply Qeq_bool_iff; lra).
    now rewrite E.
Qed.

Lemma zero_font_size_raises_witness :
  _create_body_slides ascii_digit (per_char 40) 0 5 (lit "[1] In the beginning")
  = ZeroDivisionError.
Proof.
  apply (zero_font_size_raises ascii_digit (per_char 40) 0 5
           (lit "[1] In the beginning")).
  - reflexivity.
  - vm_compute. discriminate.
Defined.

(** ** Invariants of the elements *)

Lemma heading_has_no_marker (is_digit : char -> bool) (line : str) :
  _is_section_heading is_digit line = true ->
  re_search is_digit (strip line) = false.
Proof.
  unfold _is_section_heading. intros H.
  apply andb_prop in H as [H _]. apply andb_prop in H as [_ H].
  now apply negb_true_iff in H.
Qed.

Lemma parse_loop_elements_ok (is_digit : char -> bool) (p : bool)
      (lines : list str) :
  forall elements current_body,
    Forall (fun e : element =>
              match fst e with
              | heading => trimmed (snd e) /\ re_search is_digit (snd e) = false
              | body => p = false /\ trimmed (snd e)
              | poetry => p = true /\ nonblank (snd e) = true
              end) elements ->
    Forall (fun l => if p then nonblank l = true else trimmed l) current_body ->
    Forall (fun e : element =>
              match fst e with
              | heading => trimmed (snd e) /\ re_search is_digit (snd e) = false
              | body => p = false /\ trimmed (snd e)
              | poetry => p = true /\ nonblank (snd e) = true
              end)
           (parse_loop is_digit p lines elements current_body).
Proof.
  assert (Hflush : forall current_body,
             Forall (fun l => if p then nonblank l = true else trimmed l)
                    current_body ->
             Forall (fun e : element =>
                       match fst e with
                       | heading => trimmed (snd e)
                                    /\ re_search is_digit (snd e) = false
                       | body => p = false /\ trimmed (snd e)
                       | poetry => p = true /\ nonblank (snd e) = true
                       end)
                    (flush_body p current_body)).
  { intros current_body Hb. unfold flush_body.
    destruct current_body as [|l current_body]; [constructor|].
    cbn [nonempty]. destruct p.
    - apply Forall_map. eapply Forall_impl; [|exact Hb]. now intros a Ha.
    - constructor; [|constructor]. cbn [fst snd]. split; [reflexivity|].
      apply join_sp_trimmed; [discriminate | exact Hb]. }
  induction lines as [|line rest IH]; intros elements current_body He Hb;
    cbn [parse_loop].
  - apply Forall_app; split; [assumption | now apply Hflush].
  - destruct (nonempty (strip line)) eqn:Hn; cbn [negb]; [|now apply IH].
    destruct (_is_section_heading is_digit line) eqn:Hh.
    + apply IH; [|constructor].
      apply Forall_app; split;
        [apply Forall_app; split; [assumption | now apply Hflush]|].
      constructor; [|constructor]. cbn [fst snd]. split.
      * apply strip_trimmed. now apply nonempty_true.
      * now apply heading_has_no_marker.
    + destruct p; (apply IH; [assumption|]);
        (apply Forall_app; split; [assumption|]);
        (constructor; [|constructor]).
      * exact Hn.
      * apply strip_trimmed. now apply nonempty_true.
Qed.

(** X14. In the elements of a passage, the content of a heading or of a body
    is not empty and has no whitespace at either end, and a heading holds no
    verse marker; body elements come from prose passages only and poetry
    elements, each holding a line that is not blank, from poetry passages
    only. *)
Theorem elements_are_well_formed (is_digit : char -> bool) (text : str) :
  Forall (fun e : element =>
            match fst e with
            | heading => trimmed (snd e) /\ re_search is_digit (snd e) = false
            | body => _is_poetry text = false /\ trimmed (snd e)
            | poetry => _is_poetry text = true /\ nonblank (snd e) = true
            end)
         (_parse_passage_elements is_digit text).
Proof.
  unfold _parse_passage_elements.
  apply parse_loop_elements_ok; constructor.
Qed.

(** ** Drawing *)

Lemma drawn_from_weaken (b1 b2 : Q) (ops : list canvas_op) :
  (b2 <= b1)%Q -> drawn_from b1 ops -> drawn_from b2 ops.
Proof.
  intros Hb. unfold drawn_from. apply Forall_impl.
  intros [ | | |x y text| ]; auto. intros H. now apply Qle_trans with b1.
Qed.

Lemma drawn_from_app (b : Q) (ops1 ops2 : list canvas_op) :
  drawn_from b ops1 -> drawn_from b ops2 -> drawn_from b (ops1 ++ ops2).
Proof. intros H1 H2. apply Forall_app. now split. Qed.

Lemma units_after_first_nonneg (s : slide) : (0 <= units_after_first s)%Z.
Proof.
  induction s as [|it s IH]; simpl; [lia|].
  destruct (is_heading_item it); lia.
Qed.

Lemma units_from_cons (i : nat) (it : line_item) (rest : slide) :
  units_from i (it :: rest)
  = ((if is_heading_item it then (if (0 <? i)%nat then 2 else 1) else 1)
     + units_after_first rest)%Z.
Proof.
  unfold units_from. destruct (0 <? i)%nat; cbn [units_after_first slide_units];
    destruct (is_heading_item it); reflexivity.
Qed.

Section DrawingFacts.

Variable is_digit : char -> bool.
Variable stringWidth : str -> str -> Q -> Q.
Variable g : generator.

Lemma render_segments_from (segments : list segment) :
  forall x y,
    (0 <= body_font_size g)%Q ->
    drawn_from y (fst (render_segments stringWidth g segments x y)).
Proof.
  induction segments as [|[s|digits] rest IH]; intros x y Hfs;
    cbn [render_segments].
  - constructor.
  - specialize (IH (x + stringWidth s (font g) (body_font_size g))%Q y Hfs).
    destruct (render_segments _ _ rest _ y) as [more final_x].
    cbn [fst] in *. repeat constructor; [apply Qle_refl | exact IH].
  - specialize (IH (x + stringWidth digits (font g)
                           (inject_Z (verse_number_font_size g)))%Q y Hfs).
    destruct (render_segments _ _ rest _ y) as [more final_x].
    cbn [fst app] in *. repeat constructor; [lra | exact IH].
Qed.

Lemma render_line_from (x y : Q) (line : str) :
  (0 <= body_font_size g)%Q ->
  drawn_from y (fst (_render_line_with_colored_verse_numbers
                       is_digit stringWidth g x y line)).
Proof.
  intros Hfs. unfold _render_line_with_colored_verse_numbers.
  pose proof (render_segments_from (line_segments is_digit line) x y Hfs) as H.
  now destruct (render_segments _ _ _ x y).
Qed.

Lemma render_segments_strings (segments : list segment) :
  forall x y,
    drawn_strings (fst (render_segments stringWidth g segments x y))
    = List.map segment_shown segments.
Proof.
  induction segments as [|[s|digits] rest IH]; intros x y;
    cbn [render_segments]; [reflexivity| |].
  - specialize (IH (x + stringWidth s (font g) (body_font_size g))%Q y).
    destruct (render_segments _ _ rest _ y) as [more final_x].
    cbn [fst] in *. simpl. now rewrite IH.
  - specialize (IH (x + stringWidth digits (font g)
                           (inject_Z (verse_number_font_size g)))%Q y).
    destruct (render_segments _ _ rest _ y) as [more final_x].
    cbn [fst] in *. simpl. now rewrite IH.
Qed.

Lemma render_items_advance (line_height : Q) (items : list line_item) :
  forall i y,
    (snd (render_items is_digit stringWidth g line_height i y items)
     == y - line_height * inject_Z (units_from i items))%Q.
Proof.
  induction items as [|it rest IH]; intros i y.
  - unfold units_from.
    destruct i; cbn [render_items snd units_after_first slide_units Nat.ltb Nat.leb];
      unfold inject_Z; ring.
  - rewrite units_from_cons, inject_Z_plus. cbn [render_items].
    destruct it as [text|k text|text]; cbn [is_heading_item].
    + specialize (IH (S i) ((if (0 <? i)%nat then y - line_height else y)
                            - line_height)%Q).
      destruct (render_items _ _ _ line_height (S i) _ rest) as [more final_y].
      cbn [snd] in *. rewrite IH. unfold units_from.
      destruct i; cbn [Nat.ltb Nat.leb]; unfold inject_Z; ring.
    + specialize (IH (S i) (y - line_height)%Q).
      destruct (_render_line_with_colored_verse_numbers _ _ _ _ y text).
      destruct (render_items _ _ _ line_height (S i) _ rest) as [more final_y].
      cbn [snd] in *. rewrite IH. unfold units_from.
      cbn [Nat.ltb Nat.leb]. unfold inject_Z. ring.
    + specialize (IH (S i) (y - line_height)%Q).
      destruct (_render_line_with_colored_verse_numbers _ _ _ _ y text).
      destruct (render_items _ _ _ line_height (S i) _ rest) as [more final_y].
      cbn [snd] in *. rewrite IH. unfold units_from.
      cbn [Nat.ltb Nat.leb]. unfold inject_Z. ring.
Qed.

End DrawingFacts.

(** X15. Drawing a slide moves the height down by one line height for each
    budget unit that the paginator counted for it: from [y], the loop over the
    lines ends at [y - line_height * slide_units]. *)
Theorem drawing_advances_by_the_units
        (is_digit : char -> bool) (stringWidth : str -> str -> Q -> Q)
        (g : generator) (line_height y : Q) (formatted_lines : slide) :
  (snd (render_items is_digit stringWidth g line_height 0 y formatted_lines)
   == y - line_height * inject_Z (slide_units formatted_lines))%Q.
Proof. apply (render_items_advance is_digit stringWidth g line_height formatted_lines 0 y). Qed.

(** X16. The strings drawn for a line are what its segments show, in order:
    the texts as they are and the digits of the verse numbers without their
    brackets. *)
Theorem line_draws_its_segments
        (is_digit : char -> bool) (stringWidth : str -> str -> Q -> Q)
        (g : generator) (x y : Q) (line : str) :
  drawn_strings (fst (_render_line_with_colored_verse_numbers
                        is_digit stringWidth g x y line))
  = List.map segment_shown (line_segments is_digit line).
Proof.
  unfold _render_line_with_colored_verse_numbers.
  pose proof (render_segments_strings stringWidth g
                (line_segments is_digit line) x y) as H.
  now destruct (render_segments _ _ _ x y).
Qed.

Lemma drawn_from_above (b1 b2 : Q) (ops : list canvas_op) :
  (b2 < b1)%Q -> drawn_from b1 ops -> drawn_above b2 ops.
Proof.
  intros Hb. unfold drawn_from, drawn_above. apply Forall_impl.
  intros [ | | |x y text| ]; auto. intros H. now apply Qlt_le_trans with b1.
Qed.

Lemma render_items_from
      (is_digit : char -> bool) (stringWidth : str -> str -> Q -> Q)
      (g : generator) (line_height : Q) (items : list line_item) :
  (0 <= line_height)%Q -> (0 <= body_font_size g)%Q ->
  forall i y,
    drawn_from (y - line_height * inject_Z (units_from i items) + line_height)
               (fst (render_items is_digit stringWidth g line_height i y items)).
Proof.
  intros Hlh Hfs. induction items as [|it rest IH]; intros i y.
  - constructor.
  - assert (Hu : (0 <= line_height * inject_Z (units_after_first rest))%Q).
    { apply Qmult_le_0_compat; [assumption|].
      change (inject_Z 0 <= inject_Z (units_after_first rest))%Q.
      rewrite <- Zle_Qle. apply units_after_first_nonneg. }
    assert (Hrest : forall y',
               (y' - line_height * inject_Z (units_from (S i) rest) + line_height
                == y' - line_height * inject_Z (units_after_first rest)
                   + line_height)%Q) by (intros y'; reflexivity).
    cbn [render_items]. destruct it as [text|k text|text].
    + specialize (IH (S i) ((if (0 <? i)%nat then y - line_height else y)
                            - line_height)%Q).
      destruct (render_items _ _ _ line_height (S i) _ rest) as [more final_y].
      cbn [fst] in *. rewrite units_from_cons, inject_Z_plus.
      cbn [is_heading_item].
      set (u := (line_height * inject_Z (units_after_first rest))%Q) in *.
      unfold units_from in IH. cbn [Nat.ltb Nat.leb] in IH. fold u in IH.
      apply drawn_from_app.
      * repeat constructor. destruct i; cbn [Nat.ltb Nat.leb];
          rewrite Qmult_plus_distr_r; fold u;
          change (inject_Z 1) with 1%Q; change (inject_Z 2) with 2%Q; lra.
      * eapply drawn_from_weaken; [|exact IH].
        destruct i; cbn [Nat.ltb Nat.leb];
          rewrite Qmult_plus_distr_r; fold u;
          change (inject_Z 1) with 1%Q; change (inject_Z 2) with 2%Q; lra.
    + specialize (IH (S i) (y - line_height)%Q).
      pose proof (render_line_from is_digit stringWidth g
                    (MARGIN_LEFT
                     + inject_Z (Z.of_nat k) * (body_font_size g * (3 # 10)))%Q
                    y text Hfs) as Hline.
      destruct (_render_line_with_colored_verse_numbers _ _ _ _ y text)
        as [line_ops w].
      destruct (render_items _ _ _ line_height (S i) _ rest) as [more final_y].
      cbn [fst] in *. rewrite units_from_cons, inject_Z_plus.
      cbn [is_heading_item].
      set (u := (line_height * inject_Z (units_after_first rest))%Q) in *.
      unfold units_from in IH. cbn [Nat.ltb Nat.leb] in IH. fold u in IH.
      apply drawn_from_app; [repeat constructor|].
      apply drawn_from_app.
      * eapply drawn_from_weaken; [|exact Hline].
        rewrite Qmult_plus_distr_r; fold u.
        change (inject_Z 1) with 1%Q. lra.
      * eapply drawn_from_weaken; [|exact IH].
        rewrite Qmult_plus_distr_r; fold u.
        change (inject_Z 1) with 1%Q. lra.
    + specialize (IH (S i) (y - line_height)%Q).
      pose proof (render_line_from is_digit stringWidth g MARGIN_LEFT
                    y text Hfs) as Hline.
      destruct (_render_line_with_colored_verse_numbers _ _ _ _ y text)
        as [line_ops w].
      destruct (render_items _ _ _ line_height (S i) _ rest) as [more final_y].
      cbn [fst] in *. rewrite units_from_cons, inject_Z_plus.
      cbn [is_heading_item].
      set (u := (line_height * inject_Z (units_after_first rest))%Q) in *.
      unfold units_from in IH. cbn [Nat.ltb Nat.leb] in IH. fold u in IH.
      apply drawn_from_app; [repeat constructor|].
      apply drawn_from_app.
      * eapply drawn_from_weaken; [|exact Hline].
        rewrite Qmult_plus_distr_r; fold u.
        change (inject_Z 1) with 1%Q. lra.
      * eapply drawn_from_weaken; [|exact IH].
        rewrite Qmult_plus_distr_r; fold u.
        change (inject_Z 1) with 1%Q. lra.
Qed.

Lemma int_trunc_le (q : Q) : (0 <= q)%Q -> (inject_Z (int_trunc q) <= q)%Q.
Proof.
  destruct q as [n d]. unfold Qle, int_trunc, inject_Z. simpl. intros H.
  rewrite Z.mul_1_r in *. rewrite Z.mul_comm. apply Z.mul_quot_le; lia.
Qed.

Lemma emitted_slides_ok (fuel : nat) (available_height line_height : Q)
      (lines : list line_item) :
  Forall (slide_ok (int_trunc (available_height / line_height)))
         (emitted (paginate fuel available_height line_height lines)).
Proof.
  unfold paginate. destruct lines as [|it lines]; [constructor|].
  destruct (Qeq_bool line_height 0); [constructor|].
  pose proof (paginate_loop_budget (int_trunc (available_height / line_height))
                fuel (it :: lines)) as H.
  destruct (paginate_loop _ fuel (it :: lines)) as [slides ended].
  now destruct ended.
Qed.

Lemma slide_ok_room (line_height : Q) (s : slide) :
  (0 < line_height)%Q ->
  slide_ok (int_trunc ((SLIDE_HEIGHT - MARGIN_TOP - MARGIN_BOTTOM) / line_height))
           s ->
  (MARGIN_BOTTOM
   < SLIDE_HEIGHT - MARGIN_TOP - line_height * inject_Z (slide_units s)
     + line_height)%Q.
Proof.
  intros Hlh [_ [Hunits|(content & ->)]].
  - set (q := ((SLIDE_HEIGHT - MARGIN_TOP - MARGIN_BOTTOM) / line_height)%Q) in *.
    assert (Hq : (0 <= q)%Q).
    { unfold q. apply Qle_shift_div_l; [assumption|].
      unfold SLIDE_HEIGHT, MARGIN_TOP, MARGIN_BOTTOM. lra. }
    assert (H1 : (inject_Z (slide_units s) <= q)%Q).
    { apply Qle_trans with (inject_Z (int_trunc q)).
      - now rewrite <- Zle_Qle.
      - now apply int_trunc_le. }
    assert (H2 : (line_height * inject_Z (slide_units s)
                  <= SLIDE_HEIGHT - MARGIN_TOP - MARGIN_BOTTOM)%Q).
    { apply Qle_trans with (line_height * q)%Q.
      - apply Qmult_le_l; assumption.
      - unfold q. rewrite Qmult_div_r; [apply Qle_refl|]. lra. }
    unfold SLIDE_HEIGHT, MARGIN_TOP, MARGIN_BOTTOM in *. lra.
  - cbn [slide_units units_after_first]. unfold inject_Z.
    unfold SLIDE_HEIGHT, MARGIN_TOP, MARGIN_BOTTOM. simpl. lra.
Qed.

(** X17. On every body slide that [_create_body_slides] hands over, at a
    font size above zero, each string of the slide's lines is drawn above the
    bottom margin, where the footer is. *)
Theorem body_text_stays_above_the_footer
        (is_digit : char -> bool) (stringWidth : str -> str -> Q -> Q)
        (g : generator) (fuel : nat) (text : str) (s : slide) :
  (0 < body_font_size g)%Q ->
  In s (emitted (_create_body_slides is_digit
                   (fun t => stringWidth t (font g) (body_font_size g))
                   (body_font_size g) fuel text)) ->
  drawn_above MARGIN_BOTTOM
    (fst (render_items is_digit stringWidth g (body_font_size g * (3 # 2))%Q 0
            (SLIDE_HEIGHT - MARGIN_TOP)%Q s)).
Proof.
  intros Hfs Hin. unfold _create_body_slides in Hin.
  pose proof (emitted_slides_ok fuel (SLIDE_HEIGHT - MARGIN_TOP - MARGIN_BOTTOM)%Q
                (body_font_size g * (3 # 2))%Q
                (format_lines (fun t => stringWidth t (font g) (body_font_size g))
                   (body_font_size g) (_parse_passage_elements is_digit text)))
    as Hok.
  rewrite Forall_forall in Hok. apply Hok in Hin.
  assert (Hlh : (0 < body_font_size g * (3 # 2))%Q) by lra.
  apply slide_ok_room in Hin; [|assumption].
  assert (Hlh0 : (0 <= body_font_size g * (3 # 2))%Q) by lra.
  assert (Hfs0 : (0 <= body_font_size g)%Q) by lra.
  pose proof (render_items_from is_digit stringWidth g
                (body_font_size g * (3 # 2))%Q s Hlh0 Hfs0 0%nat
                (SLIDE_HEIGHT - MARGIN_TOP)%Q) as Hfrom.
  change (units_from 0 s) with (slide_units s) in Hfrom.
  exact (drawn_from_above _ _ _ Hin Hfrom).
Qed.

Lemma body_text_stays_above_the_footer_witness :
  drawn_above MARGIN_BOTTOM
    (fst (render_items ascii_digit (fun t _ _ => per_char 40 t)
            (PDFGenerator_init (lit "Helvetica") 64)
            (body_font_size (PDFGenerator_init (lit "Helvetica") 64) * (3 # 2))%Q
            0 (SLIDE_HEIGHT - MARGIN_TOP)%Q
            [Body (lit "[1] In the beginning")])).
Proof.
  apply (body_text_stays_above_the_footer ascii_digit (fun t _ _ => per_char 40 t)
           (PDFGenerator_init (lit "Helvetica") 64) 1
           (lit "[1] In the beginning") [Body (lit "[1] In the beginning")]).
  - reflexivity.
  - vm_compute. left. reflexivity.
Defined.

(** ** More on the segmenter *)

Section SegmentFacts.

Variable is_digit : char -> bool.

Lemma match_digits_digits (t : str) :
  forall digits rest,
    match_digits is_digit t = Some (digits, rest) ->
    digits <> [] /\ forallb is_digit digits = true.
Proof.
  induction t as [|c t IH]; intros digits rest E; simpl in E; [discriminate|].
  destruct (is_digit c) eqn:Hc; [|discriminate].
  destruct (match_digits is_digit t) as [[ds r]|].
  - inversion E; subst. split; [discriminate|]. simpl. rewrite Hc.
    now destruct (IH ds rest eq_refl).
  - destruct t as [|c' t']; [discriminate|].
    destruct (c' =? RBRACKET)%N; [|discriminate].
    inversion E; subst. split; [discriminate|]. simpl. now rewrite Hc.
Qed.

Lemma match_digits_extend (t u : str) :
  match_digits is_digit t <> None -> match_digits is_digit (t ++ u) <> None.
Proof.
  induction t as [|c t IH]; simpl; [congruence|].
  destruct (is_digit c); [|congruence].
  destruct (match_digits is_digit t) as [[ds r]|] eqn:E.
  - intros _. destruct (match_digits is_digit (t ++ u)) as [[ds' r']|] eqn:E'.
    + discriminate.
    + exfalso. now apply IH.
  - destruct t as [|c' t']; [congruence|].
    destruct (c' =? RBRACKET)%N eqn:Hc'; [|congruence]. intros _.
    destruct (match_digits is_digit ((c' :: t') ++ u)) as [[ds' r']|];
      [discriminate|]. simpl. rewrite Hc'. discriminate.
Qed.

Lemma match_at_extend (s u : str) :
  match_at is_digit s <> None -> match_at is_digit (s ++ u) <> None.
Proof.
  destruct s as [|c t]; simpl; [congruence|].
  destruct (c =? LBRACKET)%N; [apply match_digits_extend | congruence].
Qed.

Lemma re_search_none (s : str) :
  (forall i, match_at is_digit (skipn i s) = None) -> re_search is_digit s = false.
Proof.
  induction s as [|c t IH]; intros H.
  - reflexivity.
  - cbn [re_search]. rewrite (H 0%nat : match_at is_digit (c :: t) = None).
    apply IH. intros i. exact (H (S i)).
Qed.

Lemma segmentation_well_formed (s : str) (segments : list segment) :
  segmentation is_digit s segments ->
  Forall (fun sg =>
            match sg with
            | Text t => t <> [] /\ re_search is_digit t = false
            | VerseNumber digits =>
                digits <> [] /\ forallb is_digit digits = true
            end) segments.
Proof.
  induction 1 as [g Hnone|g digits rest segments Hnone Hmatch _ IH].
  - unfold text_segment. destruct g as [|c g]; constructor; [|constructor].
    split; [discriminate | now apply re_search_none].
  - apply Forall_app. split.
    + unfold text_segment. destruct g as [|c g]; constructor; [|constructor].
      split; [discriminate|]. apply re_search_none. intros i.
      destruct (Nat.lt_ge_cases i (List.length (c :: g))) as [Hlt|Hge].
      * specialize (Hnone i Hlt). rewrite skipn_app in Hnone.
        replace (i - List.length (c :: g))%nat with 0%nat in Hnone by lia.
        cbn [skipn] in Hnone.
        destruct (match_at is_digit (skipn i (c :: g))) eqn:E; [|reflexivity].
        exfalso. apply (match_at_extend (skipn i (c :: g)) (marker digits ++ rest));
          [congruence | exact Hnone].
      * now rewrite skipn_all2.
    + constructor; [|exact IH].
      unfold match_at, marker in Hmatch. cbn [app] in Hmatch.
      rewrite N.eqb_refl in Hmatch. now apply match_digits_digits in Hmatch.
Qed.

End SegmentFacts.

(** X18. In the segments of a line no text segment is empty and none holds a
    verse marker, so every marker of the line has become a verse number; and
    every verse number is a non-empty run of digits. *)
Theorem segments_are_well_formed (is_digit : char -> bool) (line : str) :
  Forall (fun sg =>
            match sg with
            | Text t => t <> [] /\ re_search is_digit t = false
            | VerseNumber digits =>
                digits <> [] /\ forallb is_digit digits = true
            end)
         (line_segments is_digit line).
Proof.
  apply segmentation_well_formed with line. apply line_segments_spec.
Qed.

(** ** The generator *)


Lemma scaled_size (k n : Z) :
  int_trunc (inject_Z k * (inject_Z n / 64))%Q = (k * n ÷ 64)%Z.
Proof.
  unfold int_trunc, Qdiv, Qmult, Qinv, inject_Z. cbn [Qnum Qden Pos.mul].
  now rewrite Z.mul_1_r.
Qed.

(** X20. At every font size that is a non-negative integer, the scaled sizes
    are ordered: footer, then verse number, then body, then title. *)
Theorem font_sizes_are_ordered (font_name : str) (font_size : Z) :
  (0 <= font_size)%Z ->
  let g := PDFGenerator_init font_name (inject_Z font_size) in
  (footer_font_size g <= verse_number_font_size g)%Z
  /\ (verse_number_font_size g <= font_size)%Z
  /\ (font_size <= title_font_size g)%Z.
Proof.
  intros Hfs. unfold PDFGenerator_init.
  cbn [footer_font_size verse_number_font_size title_font_size].
  change 24%Q with (inject_Z 24). change 42%Q with (inject_Z 42).
  change 72%Q with (inject_Z 72). rewrite !scaled_size.
  rewrite !Z.quot_div_nonneg by lia.
  repeat split.
  - apply Z.div_le_mono; lia.
  - apply Z.div_le_upper_bound; lia.
  - apply Z.div_le_lower_bound; lia.
Qed.

Lemma font_sizes_are_ordered_witness :
  let g := PDFGenerator_init (lit "Helvetica") (inject_Z 72) in
  (footer_font_size g <= verse_number_font_size g)%Z
  /\ (verse_number_font_size g <= 72)%Z
  /\ (72 <= title_font_size g)%Z.
Proof.
  apply (font_sizes_are_ordered (lit "Helvetica") 72). lia.
Defined.

(** ** Greedy pagination *)

Section GreedyFacts.

Variable max_lines : Z.

(** When the inner loop stops before a line, that line did not fit. *)
Lemma fill_slide_break (lines : list line_item) :
  forall cur n cur' n' it rest,
    fill_slide max_lines lines cur n = (cur', n', it :: rest) ->
    if is_heading_item it
    then (max_lines < n' + 3)%Z
    else (max_lines < n' + 1)%Z.
Proof.
  induction lines as [|x lines IH]; intros cur n cur' n' it rest E;
    cbn [fill_slide] in E.
  - discriminate.
  - destruct (is_heading_item x) eqn:Hx.
    + destruct (_ && _) eqn:Hbreak.
      * inversion E; subst. rewrite Hx.
        apply andb_prop in Hbreak as [Hbreak _]. apply gtb_true in Hbreak.
        destruct (nonempty cur');
          destruct (match rest with [] => false | next :: _ => is_body_item next end);
          lia.
      * now apply IH in E.
    + destruct (_ >? _)%Z eqn:Hbreak.
      * inversion E; subst. rewrite Hx. apply gtb_true in Hbreak. lia.
      * now apply IH in E.
Qed.

(** The first slide of a pagination opens with the first line. *)
Lemma first_slide_starts (fuel : nat) :
  forall lines s more,
    fst (paginate_loop max_lines fuel lines) = s :: more ->
    exists it tl rest, lines = it :: rest /\ s = it :: tl.
Proof.
  induction fuel as [|fuel IH]; intros lines s more E.
  - destruct lines; discriminate.
  - destruct lines as [|it lines]; [discriminate|].
    rewrite paginate_loop_S in E by discriminate.
    destruct (fill_slide max_lines (it :: lines) [] 0%Z) as [[cur n] rest] eqn:Ef.
    apply fill_slide_split in Ef as (taken & -> & Hlines).
    destruct (paginate_loop max_lines fuel rest) as [slides ended] eqn:Ep.
    cbn [fst app] in E. destruct taken as [|x taken]; cbn [nonempty] in E.
    + cbn [app] in Hlines. subst rest.
      apply (IH (it :: lines) s more). now rewrite Ep.
    + inversion E; subst. inversion Hlines; subst.
      now exists x, taken, (taken ++ rest).
Qed.

Lemma paginate_loop_greedy (fuel : nat) :
  forall lines, breaks_called_for max_lines (fst (paginate_loop max_lines fuel lines)).
Proof.
  induction fuel as [|fuel IH]; intros lines.
  - destruct lines; exact I.
  - destruct lines as [|it lines]; [exact I|].
    rewrite paginate_loop_S by discriminate.
    destruct (fill_slide max_lines (it :: lines) [] 0%Z) as [[cur n] rest] eqn:Ef.
    specialize (IH rest).
    destruct (paginate_loop max_lines fuel rest) as [slides ended] eqn:Ep.
    cbn [fst] in *. destruct cur as [|x cur]; cbn [nonempty]; [exact IH|].
    destruct slides as [|s2 slides]; [exact I|].
    cbn [breaks_called_for]. split; [|exact IH].
    assert (Hfirst : fst (paginate_loop max_lines fuel rest) = s2 :: slides)
      by now rewrite Ep.
    apply first_slide_starts in Hfirst as (y & tl & rest' & -> & ->).
    pose proof (fill_slide_budget max_lines (it :: lines) [] 0%Z (x :: cur) n
                  (y :: rest') (conj eq_refl (or_introl eq_refl)) Ef) as [Hn _].
    apply fill_slide_break in Ef. unfold break_called_for.
    destruct (is_heading_item y); lia.
Qed.

End GreedyFacts.

(** X21. The pagination is greedy: a slide is closed only when the next line
    did not fit.  Where a slide ends before a body or poetry line it has used
    the whole budget, and where it ends before a heading fewer than three
    units of the budget are left. *)
Theorem slides_are_closed_when_full
        (max_lines : Z) (fuel : nat) (lines : list line_item) :
  breaks_called_for max_lines (fst (paginate_loop max_lines fuel lines)).
Proof. apply paginate_loop_greedy. Qed.

(** ** The passage source *)




